(** * SetKeyedMap: a map whose keys are JavaScript [Set] objects

    Shallow embedding of [src/index.ts].

    JavaScript compares objects by identity, so a key is a _reference_ into
    a heap of [Set] objects.  A [Set] keeps its elements duplicate free and
    in insertion order; the heap cell of a [Set] is the list of its elements
    in that order.  The two native [Map]s of a container are private fields
    created by the field initialisers, so no two containers share them: the
    container is a record that is passed from state to state, and only the
    [Set] objects live in the shared heap.

    Objects are never reclaimed while a reference to them exists, so the
    heap only grows: [new Set] and the key copies made by the container
    append a cell, and [add]/[delete]/[clear] on a [Set] overwrite one.

    Callbacks are modelled as pure functions of the entry's value and the
    elements of the key they are handed.  Where the source goes on using the
    key object after the call ([filter] and [mapOver] pass it to
    [result.set], [find] returns it), the callback also says which elements
    it leaves in that object, and the object is updated before it is used
    again.  Callbacks are taken not to call the mutating methods of the
    container that is being iterated.  Keys of zero elements are kept in
    the model throughout: the source resolves them to "not found"
    ([getCannonicalKey], the guard on [firstSubkeys]). *)

From stdpp Require Import gmap list.

#[local] Set Warnings "-clear-no-such-hyp".

(** ** Native [Set] objects *)

Abbreviation ref := nat (only parsing).

Module JSSet.
Section JSSet.
Context {KT : Type} `{EqDecision KT}.

(** [s.add(e)]: appends [e] unless it is already a member. *)
Definition add (e : KT) (s : list KT) : list KT :=
  if decide (e ∈ s) then s else s ++ [e].

(** [s.delete(e)]. *)
Definition remove (e : KT) (s : list KT) : list KT :=
  filter (λ x, x ≠ e) s.

(** [new Set(iterable)]: adds the items one by one. *)
Definition from (l : list KT) : list KT :=
  foldl (λ s e, add e s) [] l.

(** [Array.from(s)]: the elements in insertion order. *)
Definition to_array (s : list KT) : list KT := s.

(** The heap of [Set] objects; a reference is an index into it. *)
Definition contents (h : list (list KT)) (k : ref) : list KT :=
  default [] (h !! k).

(** [k.size]. *)
Definition size (h : list (list KT)) (k : ref) : nat :=
  length (contents h k).

(** Allocation of a new object: the fresh reference and the new heap. *)
Definition alloc (h : list (list KT)) (s : list KT) : ref * list (list KT) :=
  (length h, h ++ [s]).
End JSSet.
End JSSet.

(** ** Native [Map] with object keys: insertion ordered, keyed by identity *)

Module JSMap.
Section JSMap.
Context {V : Type}.

Definition has (m : list (ref * V)) (k : ref) : bool :=
  bool_decide (k ∈ m.*1).

Fixpoint get (m : list (ref * V)) (k : ref) : option V :=
  match m with
  | [] => None
  | (k', v) :: m' => if decide (k' = k) then Some v else get m' k
  end.

(** [m.set(k, v)]: an existing key keeps its position. *)
Fixpoint set (m : list (ref * V)) (k : ref) (v : V) : list (ref * V) :=
  match m with
  | [] => [(k, v)]
  | (k', v') :: m' =>
      if decide (k' = k) then (k', v) :: m' else (k', v') :: set m' k v
  end.

Definition delete (m : list (ref * V)) (k : ref) : list (ref * V) :=
  filter (λ p, p.1 ≠ k) m.
End JSMap.
End JSMap.

(** ** Strict equality of values

    [v === value] is not reflexive on every value ([NaN === NaN] is false),
    so the value type brings its own test. *)

Class StrictEq (V : Type) := strict_eq : V → V → bool.

(** ** The container *)

Module SetKeyedMap.
Section SetKeyedMap.
Context {KT : Type} `{Countable KT}.

Record t (V : Type) := Build {
  valueMap : list (ref * V);
  subkeyToKeys : gmap KT (list ref)
}.
Global Arguments Build {V} _ _.
Global Arguments valueMap {V} _.
Global Arguments subkeyToKeys {V} _.

(** [new SetKeyedMap()]. *)
Definition empty {V} : t V := Build [] ∅.

Definition size {V} (m : t V) : nat := length (valueMap m).

Definition clear {V} (m : t V) : t V := Build [] ∅.

(** Stable sort of the candidate rows by ascending length
    ([Array.prototype.sort] is stable). *)
Fixpoint insert_row (a : list ref) (l : list (list ref)) : list (list ref) :=
  match l with
  | [] => [a]
  | b :: l' =>
      if decide (length a ≤ length b) then a :: b :: l'
      else b :: insert_row a l'
  end.

Definition sort_rows (l : list (list ref)) : list (list ref) :=
  foldr insert_row [] l.

Definition getCannonicalKey {V} (h : list (list KT)) (m : t V) (key : ref)
  : option ref :=
  if JSMap.has (valueMap m) key then Some key
  else
    let subkeys := JSSet.to_array (JSSet.contents h key) in
    let potentialCanonicalKeys :=
      List.map
        (λ keys : option (list ref),
           match keys with
           | Some keys =>
               filter (λ key, JSSet.size h key = length subkeys) keys
           | None => []
           end)
        (List.map (λ subkey, subkeyToKeys m !! subkey) subkeys) in
    let potentialCanonicalKeys := sort_rows potentialCanonicalKeys in
    match potentialCanonicalKeys with
    | [] => None
    | firstSubkeys :: _ =>
        List.find
          (λ key,
             forallb (λ keys : list ref, bool_decide (key ∈ keys))
               potentialCanonicalKeys)
          firstSubkeys
    end.

Definition createCanonicalKey (h : list (list KT)) (from : ref)
  : ref * list (list KT) :=
  JSSet.alloc h (JSSet.from (JSSet.to_array (JSSet.contents h from))).

Definition createUserFacingKey (h : list (list KT)) (from : ref)
  : ref * list (list KT) :=
  JSSet.alloc h (JSSet.from (JSSet.to_array (JSSet.contents h from))).

(** The loop of [set] that registers a new canonical key in the index. *)
Definition register (canonicalKey : ref) (idx : gmap KT (list ref))
    (subkeys : list KT) : gmap KT (list ref) :=
  foldl
    (λ idx subkey,
       let keyList := default [] (idx !! subkey) in
       <[subkey := keyList ++ [canonicalKey]]> idx)
    idx subkeys.

Definition set {V} (h : list (list KT)) (m : t V) (key : ref) (value : V)
  : list (list KT) * t V :=
  match getCannonicalKey h m key with
  | Some existingCanonicalKey =>
      (h, Build (JSMap.set (valueMap m) existingCanonicalKey value)
            (subkeyToKeys m))
  | None =>
      let '(canonicalKey, h') := createCanonicalKey h key in
      (h', Build (JSMap.set (valueMap m) canonicalKey value)
             (register canonicalKey (subkeyToKeys m)
                (JSSet.contents h' canonicalKey)))
  end.

(** The loop of [delete] that removes a canonical key from the index. *)
Definition unregister (canonicalKey : ref) (idx : gmap KT (list ref))
    (subkeys : list KT) : gmap KT (list ref) :=
  foldl
    (λ idx subkey,
       match idx !! subkey with
       | None => idx
       | Some keylist =>
           let newkeylist := filter (λ k, k ≠ canonicalKey) keylist in
           match newkeylist with
           | [] => base.delete subkey idx
           | _ :: _ => <[subkey := newkeylist]> idx
           end
       end)
    idx subkeys.

Definition delete {V} (h : list (list KT)) (m : t V) (key : ref)
  : t V * bool :=
  match getCannonicalKey h m key with
  | None => (m, false)
  | Some canonicalKey =>
      (Build (JSMap.delete (valueMap m) canonicalKey)
         (unregister canonicalKey (subkeyToKeys m)
            (JSSet.contents h canonicalKey)),
       true)
  end.

Definition get {V} (h : list (list KT)) (m : t V) (key : ref) : option V :=
  match getCannonicalKey h m key with
  | None => None
  | Some canonicalKey => JSMap.get (valueMap m) canonicalKey
  end.

Definition has {V} (h : list (list KT)) (m : t V) (key : ref) : bool :=
  match getCannonicalKey h m key with
  | None => false
  | Some canonicalKey => JSMap.has (valueMap m) canonicalKey
  end.

(** [keys()], run to the end. *)
Definition keys_step {V} (st : list (list KT) * list ref)
    (kv : ref * V) : list (list KT) * list ref :=
  let '(key, h') := createUserFacingKey st.1 kv.1 in
  (h', st.2 ++ [key]).

Definition keys {V} (h : list (list KT)) (m : t V)
  : list (list KT) * list ref :=
  foldl keys_step (h, []) (valueMap m).

Definition values {V} (m : t V) : list V := (valueMap m).*2.

(** [entries()], run to the end: one fresh user-facing key per entry. *)
Definition entries_step {V} (st : list (list KT) * list (ref * V))
    (kv : ref * V) : list (list KT) * list (ref * V) :=
  let '(key, h') := createUserFacingKey st.1 kv.1 in
  (h', st.2 ++ [(key, kv.2)]).

Definition entries {V} (h : list (list KT)) (m : t V)
  : list (list KT) * list (ref * V) :=
  foldl entries_step (h, []) (valueMap m).

(** [forEach]: the callback returns nothing; what it does to the caller's
    own state is threaded through as [S]. *)
Definition forEach_step {V S} (callbackfn : S → V → list KT → S)
    (st : list (list KT) * S) (kv : ref * V) : list (list KT) * S :=
  let '(key, h') := createUserFacingKey st.1 kv.1 in
  (h', callbackfn st.2 kv.2 (JSSet.contents h' key)).

Definition forEach {V S} (h : list (list KT)) (m : t V)
    (callbackfn : S → V → list KT → S) (s : S) : list (list KT) * S :=
  foldl (forEach_step callbackfn) (h, s) (valueMap m).

(** A loop over [this.entries()] whose body may [return]: the generator is
    advanced one entry at a time, so the entries after the [return] are
    never copied. *)
Fixpoint for_entries {V R} (body : ref → V → list KT → option R)
    (h : list (list KT)) (l : list (ref * V)) : list (list KT) * option R :=
  match l with
  | [] => (h, None)
  | kv :: l' =>
      let '(key, h') := createUserFacingKey h kv.1 in
      match body key kv.2 (JSSet.contents h' key) with
      | Some r => (h', Some r)
      | None => for_entries body h' l'
      end
  end.

Definition every {V} (h : list (list KT)) (m : t V)
    (callbackfn : V → list KT → bool) : list (list KT) * bool :=
  let '(h', r) :=
    for_entries (λ _ value s, if callbackfn value s then None else Some false)
      h (valueMap m) in
  (h', default true r).

(** [filter]: each iteration draws the next entry (allocating its
    user-facing key), calls the predicate on that key object and then
    inserts the same object through [set].  [callbackfn value s] is the
    predicate's verdict together with the elements it leaves in the key;
    the key object holds those elements when [set] reads it. *)
Definition filter_step {V} (callbackfn : V → list KT → bool * list KT)
    (st : list (list KT) * t V) (kv : ref * V) : list (list KT) * t V :=
  let '(key, h') := createUserFacingKey st.1 kv.1 in
  let '(keep, s) := callbackfn kv.2 (JSSet.contents h' key) in
  let h'' := <[key := JSSet.from s]> h' in
  if keep then set h'' st.2 key kv.2 else (h'', st.2).

Definition filter {V} (h : list (list KT)) (m : t V)
    (callbackfn : V → list KT → bool * list KT) : list (list KT) * t V :=
  foldl (filter_step callbackfn) (h, empty) (valueMap m).

Definition some {V} (h : list (list KT)) (m : t V)
    (callbackfn : V → list KT → bool) : list (list KT) * bool :=
  let '(h', r) :=
    for_entries (λ _ value s, if callbackfn value s then Some true else None)
      h (valueMap m) in
  (h', default false r).

(** [find] returns the key object it handed to the predicate, so the
    predicate's result says, as for [filter], which elements it leaves in
    that object. *)
Fixpoint find_entries {V} (callbackfn : V → list KT → bool * list KT)
    (h : list (list KT)) (l : list (ref * V))
  : list (list KT) * option (ref * V) :=
  match l with
  | [] => (h, None)
  | kv :: l' =>
      let '(key, h') := createUserFacingKey h kv.1 in
      let '(found, s) := callbackfn kv.2 (JSSet.contents h' key) in
      let h'' := <[key := JSSet.from s]> h' in
      if found then (h'', Some (key, kv.2))
      else find_entries callbackfn h'' l'
  end.

Definition find {V} (h : list (list KT)) (m : t V)
    (callbackfn : V → list KT → bool * list KT)
  : list (list KT) * option (ref * V) :=
  find_entries callbackfn h (valueMap m).

(** [includes]: [v === value] for some stored [v]. *)
Definition includes {V} `{StrictEq V} (m : t V) (value : V) : bool :=
  existsb (λ v, strict_eq v value) (values m).

Definition map_step {V T} (callbackfn : V → list KT → T)
    (st : list (list KT) * list T) (kv : ref * V)
  : list (list KT) * list T :=
  let '(key, h') := createUserFacingKey st.1 kv.1 in
  (h', st.2 ++ [callbackfn kv.2 (JSSet.contents h' key)]).

Definition map {V T} (h : list (list KT)) (m : t V)
    (callbackfn : V → list KT → T) : list (list KT) * list T :=
  foldl (map_step callbackfn) (h, []) (valueMap m).

Definition flatMap_step {V T} (callbackfn : V → list KT → list T)
    (st : list (list KT) * list T) (kv : ref * V)
  : list (list KT) * list T :=
  let '(key, h') := createUserFacingKey st.1 kv.1 in
  (h', st.2 ++ callbackfn kv.2 (JSSet.contents h' key)).

Definition flatMap {V T} (h : list (list KT)) (m : t V)
    (callbackfn : V → list KT → list T) : list (list KT) * list T :=
  foldl (flatMap_step callbackfn) (h, []) (valueMap m).

(** [mapOver]: the callback is evaluated on the key object first, then
    [set] is called on the same object; [callbackfn value s] is the new
    value together with the elements the callback leaves in the key. *)
Definition mapOver_step {V T} (callbackfn : V → list KT → T * list KT)
    (st : list (list KT) * t T) (kv : ref * V) : list (list KT) * t T :=
  let '(key, h') := createUserFacingKey st.1 kv.1 in
  let '(value, s) := callbackfn kv.2 (JSSet.contents h' key) in
  let h'' := <[key := JSSet.from s]> h' in
  set h'' st.2 key value.

Definition mapOver {V T} (h : list (list KT)) (m : t V)
    (callbackfn : V → list KT → T * list KT) : list (list KT) * t T :=
  foldl (mapOver_step callbackfn) (h, empty) (valueMap m).

Definition reduce_step {V T} (callbackfn : T → V → list KT → T)
    (st : list (list KT) * T) (kv : ref * V) : list (list KT) * T :=
  let '(key, h') := createUserFacingKey st.1 kv.1 in
  (h', callbackfn st.2 kv.2 (JSSet.contents h' key)).

Definition reduce {V T} (h : list (list KT)) (m : t V)
    (callbackfn : T → V → list KT → T) (initialValue : T)
  : list (list KT) * T :=
  foldl (reduce_step callbackfn) (h, initialValue) (valueMap m).

Definition reduceRight_step {V T} (callbackfn : T → V → list KT → T)
    (st : list (list KT) * T) (kv : ref * V) : list (list KT) * T :=
  let '(key, h') := createUserFacingKey st.1 kv.1 in
  (h', callbackfn st.2 kv.2 (JSSet.contents h' key)).

Definition reduceRight {V T} (h : list (list KT)) (m : t V)
    (callbackfn : T → V → list KT → T) (initialValue : T)
  : list (list KT) * T :=
  foldl (reduceRight_step callbackfn) (h, initialValue) (valueMap m).

(** [[Symbol.iterator]()] hands out [entries()]. *)
Definition iterator {V} (h : list (list KT)) (m : t V)
  : list (list KT) * list (ref * V) :=
  entries h m.

(** [[Symbol.dispose]()] clears the container. *)
Definition dispose {V} (m : t V) : t V := clear m.
End SetKeyedMap.
Global Arguments t KT {_ _} V.
End SetKeyedMap.


(** ** Invariants and reachable states *)

Section Model.
Context {KT : Type} `{Countable KT}.

(** Two keys are equivalent when they have the same elements. *)
Definition same_elements (s1 s2 : list KT) : Prop :=
  ∀ e, e ∈ s1 ↔ e ∈ s2.

Definition equivalent (h : list (list KT)) (k1 k2 : ref) : Prop :=
  same_elements (JSSet.contents h k1) (JSSet.contents h k2).

(** The references stored as keys of the value map. *)
Definition canonicalKeys {V} (m : SetKeyedMap.t KT V) : list ref :=
  (SetKeyedMap.valueMap m).*1.

(** A canonical key is created inside [set] and handed to nobody, so the
    objects a caller can pass to (or mutate behind the back of) a
    container are the live objects that are not its canonical keys. *)
Definition caller_holds {V} (h : list (list KT)) (m : SetKeyedMap.t KT V)
    (k : ref) : Prop :=
  k < length h ∧ k ∉ canonicalKeys m.

Record Inv {V} (h : list (list KT)) (m : SetKeyedMap.t KT V) : Prop := {
  inv_heap : Forall NoDup h;
  inv_live : ∀ k, k ∈ canonicalKeys m → k < length h;
  inv_keys : NoDup (canonicalKeys m);
  inv_row_sound : ∀ e row k,
    SetKeyedMap.subkeyToKeys m !! e = Some row → k ∈ row →
    k ∈ canonicalKeys m ∧ e ∈ JSSet.contents h k;
  inv_row_nonempty : ∀ e, SetKeyedMap.subkeyToKeys m !! e ≠ Some [];
  inv_row_complete : ∀ k e,
    k ∈ canonicalKeys m → e ∈ JSSet.contents h k →
    ∃ row, SetKeyedMap.subkeyToKeys m !! e = Some row ∧ k ∈ row;
  inv_unique : ∀ k1 k2,
    k1 ∈ canonicalKeys m → k2 ∈ canonicalKeys m →
    JSSet.contents h k1 ≠ [] → equivalent h k1 k2 → k1 = k2
}.

(** What a caller sees of the entries: the elements of each key, in
    iteration order, with the value. *)
Definition view {V} (h : list (list KT)) (m : SetKeyedMap.t KT V)
  : list (list KT * V) :=
  List.map (λ kv : ref * V, (JSSet.contents h kv.1, kv.2))
    (SetKeyedMap.valueMap m).

Definition strict_subset (s1 s2 : list KT) : Prop :=
  (∀ e, e ∈ s1 → e ∈ s2) ∧ ∃ e, e ∈ s2 ∧ e ∉ s1.

(** A run of [set] calls, in order. *)
Definition set_all {V} (h : list (list KT)) (m : SetKeyedMap.t KT V)
    (kvs : list (ref * V)) : list (list KT) * SetKeyedMap.t KT V :=
  foldl (λ st kv, SetKeyedMap.set st.1 st.2 kv.1 kv.2) (h, m) kvs.

(** Every entry with a non-empty key is found through any key that has
    the same elements. *)
Definition equivalence_invariant {V} (h : list (list KT))
    (m : SetKeyedMap.t KT V) : Prop :=
  ∀ s v k, (s, v) ∈ view h m → s ≠ [] →
    same_elements (JSSet.contents h k) s →
    SetKeyedMap.get h m k = Some v ∧ SetKeyedMap.has h m k = true.

(** The container [m], as the caller observes it, is the same in the
    heap [h'] as it was in the heap [h]. *)
Definition untouched {V} (h : list (list KT)) (m : SetKeyedMap.t KT V)
    (h' : list (list KT)) : Prop :=
  view h' m = view h m ∧
  ∀ k, k < length h →
    SetKeyedMap.get h' m k = SetKeyedMap.get h m k ∧
    SetKeyedMap.has h' m k = SetKeyedMap.has h m k.

(** Overwriting the object [key] with any other set of elements leaves
    the container [m] intact: its invariants and entries, and the result
    of every lookup through a caller's key. *)
Definition mutation_safe {V} (h : list (list KT)) (m : SetKeyedMap.t KT V)
    (key : ref) : Prop :=
  ∀ s, NoDup s →
    Inv (<[key := s]> h) m ∧
    view (<[key := s]> h) m = view h m ∧
    ∀ k1 k2,
      caller_holds h m k1 → caller_holds (<[key := s]> h) m k2 →
      JSSet.contents (<[key := s]> h) k2 = JSSet.contents h k1 →
      SetKeyedMap.get (<[key := s]> h) m k2 = SetKeyedMap.get h m k1 ∧
      SetKeyedMap.has (<[key := s]> h) m k2 = SetKeyedMap.has h m k1.

(** A callback that leaves the key it is handed as it found it, and the
    callback made of a function that does not touch its key at all. *)
Definition leaves_key {V T} (f : V → list KT → T * list KT) : Prop :=
  ∀ v s, (f v s).2 = s.

Definition pure_callback {V T} (f : V → list KT → T)
  : V → list KT → T * list KT :=
  λ v s, (f v s, s).

(** [set] read on the entries: a candidate with at least one element
    replaces the value of the entries that have its elements, and is
    appended when there is none; a candidate without elements is always
    appended. *)
Definition same_keyb (s' s : list KT) : bool :=
  match s with
  | [] => false
  | _ :: _ =>
      forallb (λ e, bool_decide (e ∈ s)) s' &&
      forallb (λ e, bool_decide (e ∈ s')) s
  end.

Definition view_set {V} (vw : list (list KT * V)) (s : list KT) (v : V)
  : list (list KT * V) :=
  if existsb (λ e : list KT * V, same_keyb e.1 s) vw
  then List.map (λ e : list KT * V, if same_keyb e.1 s then (e.1, v) else e) vw
  else vw ++ [(s, v)].

Definition view_set_all {V} (vw : list (list KT * V))
    (l : list (list KT * V)) : list (list KT * V) :=
  foldl (λ vw e, view_set vw e.1 e.2) vw l.

(** What [filter] and [mapOver] pass to [result.set], entry by entry: the
    key as the callback left it, with the kept or the new value. *)
Definition kept_by {V} (p : V → list KT → bool * list KT)
    (vw : list (list KT * V)) : list (list KT * V) :=
  omap (λ sv : list KT * V,
          if (p sv.2 sv.1).1 then Some (JSSet.from (p sv.2 sv.1).2, sv.2)
          else None) vw.

Definition transformed_by {V T} (f : V → list KT → T * list KT)
    (vw : list (list KT * V)) : list (list KT * T) :=
  List.map (λ sv : list KT * V,
              (JSSet.from (f sv.2 sv.1).2, (f sv.2 sv.1).1)) vw.

(** A source container and a container derived from it, side by side over
    one heap, and the mutating calls a caller can make on either. *)
Inductive op (V : Type) : Type :=
| op_set (k : ref) (v : V)
| op_delete (k : ref)
| op_clear.
Global Arguments op_set {V} _ _.
Global Arguments op_delete {V} _.
Global Arguments op_clear {V}.

Definition run_op {V} (h : list (list KT)) (m : SetKeyedMap.t KT V)
    (o : op V) : list (list KT) * SetKeyedMap.t KT V :=
  match o with
  | op_set k v => SetKeyedMap.set h m k v
  | op_delete k => (h, (SetKeyedMap.delete h m k).1)
  | op_clear => (h, SetKeyedMap.clear m)
  end.

Record world (V T : Type) := World {
  w_heap : list (list KT);
  w_source : SetKeyedMap.t KT V;
  w_derived : SetKeyedMap.t KT T
}.
Global Arguments World {V T} _ _ _.
Global Arguments w_heap {V T} _.
Global Arguments w_source {V T} _.
Global Arguments w_derived {V T} _.

Definition on_source {V T} (w : world V T) (o : op V) : world V T :=
  World (run_op (w_heap w) (w_source w) o).1
    (run_op (w_heap w) (w_source w) o).2 (w_derived w).



(** States reachable through the public interface, together with what
    the caller may do to its own [Set] objects in between. *)
Inductive reachable : ∀ V : Type, list (list KT) → SetKeyedMap.t KT V → Prop :=
| r_new V : reachable V [] SetKeyedMap.empty
| r_new_Set V h m l :
    reachable V h m → reachable V (JSSet.alloc h (JSSet.from l)).2 m
| r_Set_add V h m k e :
    reachable V h m → caller_holds h m k →
    reachable V (<[k := JSSet.add e (JSSet.contents h k)]> h) m
| r_Set_delete V h m k e :
    reachable V h m → caller_holds h m k →
    reachable V (<[k := JSSet.remove e (JSSet.contents h k)]> h) m
| r_Set_clear V h m k :
    reachable V h m → caller_holds h m k → reachable V (<[k := []]> h) m
| r_set V h m k v :
    reachable V h m → caller_holds h m k →
    reachable V (SetKeyedMap.set h m k v).1 (SetKeyedMap.set h m k v).2
| r_delete V h m k :
    reachable V h m → caller_holds h m k →
    reachable V h (SetKeyedMap.delete h m k).1
| r_clear V h m :
    reachable V h m → reachable V h (SetKeyedMap.clear m)
| r_keys V h m :
    reachable V h m → reachable V (SetKeyedMap.keys h m).1 m
| r_entries V h m :
    reachable V h m → reachable V (SetKeyedMap.entries h m).1 m
| r_forEach V S h m (f : S → V → list KT → S) s :
    reachable V h m → reachable V (SetKeyedMap.forEach h m f s).1 m
| r_every V h m f :
    reachable V h m → reachable V (SetKeyedMap.every h m f).1 m
| r_some V h m f :
    reachable V h m → reachable V (SetKeyedMap.some h m f).1 m
| r_find V h m f :
    reachable V h m → reachable V (SetKeyedMap.find h m f).1 m
| r_map V T h m (f : V → list KT → T) :
    reachable V h m → reachable V (SetKeyedMap.map h m f).1 m
| r_flatMap V T h m (f : V → list KT → list T) :
    reachable V h m → reachable V (SetKeyedMap.flatMap h m f).1 m
| r_reduce V T h m (f : T → V → list KT → T) i :
    reachable V h m → reachable V (SetKeyedMap.reduce h m f i).1 m
| r_reduceRight V T h m (f : T → V → list KT → T) i :
    reachable V h m → reachable V (SetKeyedMap.reduceRight h m f i).1 m
| r_filter V h m f :
    reachable V h m →
    reachable V (SetKeyedMap.filter h m f).1 (SetKeyedMap.filter h m f).2
| r_mapOver V T h m (f : V → list KT → T * list KT) :
    reachable V h m →
    reachable T (SetKeyedMap.mapOver h m f).1 (SetKeyedMap.mapOver h m f).2.
End Model.

(** ** Small concrete runs, with numbers as elements and values *)

Module Examples.
Definition new : SetKeyedMap.t nat nat := SetKeyedMap.empty.

(** [{1,2}] and [{2,1}]: the same elements in two objects. *)
Definition ab_ba : list (list nat) := JSSet.from <$> [[1; 2]; [2; 1]].

(** [{1}] and [{1,2}]. *)
Definition a_ab : list (list nat) := JSSet.from <$> [[1]; [1; 2]].

(** Two empty sets. *)
Definition two_empty : list (list nat) := JSSet.from <$> [[]; []].

(** [set(new Set(), 1)] on a new container, then [set(new Set(), 2)]. *)
Definition empty_once := SetKeyedMap.set two_empty new 0 1.
Definition empty_twice := SetKeyedMap.set empty_once.1 empty_once.2 1 2.

(** [set({1,2}, 10); set({3}, 20); set({4,5}, 30); delete({2,1})]. *)
Definition churn_heap : list (list nat) :=
  JSSet.from <$> [[1; 2]; [3]; [4; 5]; [2; 1]].
Definition churn1 := SetKeyedMap.set churn_heap new 0 10.
Definition churn2 := SetKeyedMap.set churn1.1 churn1.2 1 20.
Definition churn3 := SetKeyedMap.set churn2.1 churn2.2 2 30.
Definition churn4 := SetKeyedMap.delete churn3.1 churn3.2 3.

Definition over_ten (v : nat) (_ : list nat) : bool := bool_decide (10 < v).
Definition double (v : nat) (_ : list nat) : nat := 2 * v.
Definition snoc_value (acc : list nat) (v : nat) (_ : list nat) : list nat :=
  acc ++ [v].
End Examples.

(** Callbacks that change the key they are handed, and values with a
    [NaN]. *)
Module MoreExamples.
(** [(v, key) => { key.add(9); return true }]. *)
Definition add_nine (v : nat) (s : list nat) : bool * list nat :=
  (true, JSSet.add 9 s).


(** [===] on numbers without a [NaN]. *)
#[global] Instance nat_strict_eq : StrictEq nat := λ a b, bool_decide (a = b).

(** Numbers with [NaN] (here [None]): [NaN === NaN] is false. *)
#[global] Instance number_strict_eq : StrictEq (option nat) :=
  λ a b,
    match a, b with
    | Some x, Some y => bool_decide (x = y)
    | _, _ => false
    end.

(** [set({1,2}, NaN); set({3}, 5)]. *)
Definition numbers : SetKeyedMap.t nat (option nat) := SetKeyedMap.empty.
Definition nan_heap : list (list nat) := JSSet.from <$> [[1; 2]; [3]].
Definition nan1 := SetKeyedMap.set nan_heap numbers 0 None.
Definition nan2 := SetKeyedMap.set nan1.1 nan1.2 1 (Some 5).
End MoreExamples.

(** Closed decidable facts about the concrete runs are settled by
    evaluation. *)
Ltac by_computation := apply (bool_decide_unpack _); vm_compute; exact I.

(** * Native objects *)

Section JSSet_facts.
Context {KT : Type} `{EqDecision KT}.
Implicit Types (s l : list KT) (e : KT).

Lemma elem_of_add e x s : x ∈ JSSet.add e s ↔ x = e ∨ x ∈ s.
Proof.
  unfold JSSet.add. case_decide.
  - naive_solver.
  - rewrite elem_of_app, list_elem_of_singleton. naive_solver.
Qed.

Lemma NoDup_add e s : NoDup s → NoDup (JSSet.add e s).
Proof.
  intros Hs. unfold JSSet.add. case_decide; [done|].
  apply NoDup_app. split_and!; [done| |apply NoDup_singleton].
  intros x Hx ->%list_elem_of_singleton. done.
Qed.

Lemma NoDup_remove e s : NoDup s → NoDup (JSSet.remove e s).
Proof. apply NoDup_filter. Qed.

Lemma from_foldl_spec l s :
  NoDup s →
  NoDup (foldl (λ s e, JSSet.add e s) s l) ∧
  (∀ x, x ∈ foldl (λ s e, JSSet.add e s) s l ↔ x ∈ s ∨ x ∈ l) ∧
  (NoDup (s ++ l) → foldl (λ s e, JSSet.add e s) s l = s ++ l).
Proof.
  revert s. induction l as [|a l IH]; intros s Hs; simpl.
  - split_and!; [done| |by rewrite app_nil_r].
    intros x. rewrite elem_of_nil. naive_solver.
  - destruct (IH (JSSet.add a s) (NoDup_add a s Hs)) as (Hnd & Hel & Hid).
    split_and!; [done| |].
    + intros x. rewrite Hel, elem_of_add, elem_of_cons. naive_solver.
    + intros Hall. assert (a ∉ s) as Ha.
      { apply NoDup_app in Hall as (_ & Hd & _). intros Hin.
        apply (Hd a Hin). left. }
      assert (JSSet.add a s = s ++ [a]) as Hadd.
      { unfold JSSet.add. by case_decide. }
      rewrite Hadd in *.
      replace (s ++ a :: l) with ((s ++ [a]) ++ l) in *
        by (by rewrite <- (assoc_L (++))).
      by apply Hid.
Qed.

Lemma NoDup_from l : NoDup (JSSet.from l).
Proof. apply from_foldl_spec, NoDup_nil_2. Qed.

Lemma from_NoDup l : NoDup l → JSSet.from l = l.
Proof.
  intros Hl. destruct (from_foldl_spec l [] (NoDup_nil_2)) as (_ & _ & Hid).
  by apply Hid.
Qed.

Lemma contents_app_l (h ext : list (list KT)) k :
  k < length h → JSSet.contents (h ++ ext) k = JSSet.contents h k.
Proof. intros Hk. unfold JSSet.contents. by rewrite lookup_app_l. Qed.

Lemma contents_alloc (h : list (list KT)) s :
  JSSet.contents (h ++ [s]) (length h) = s.
Proof.
  unfold JSSet.contents. rewrite lookup_app_r by lia.
  by rewrite Nat.sub_diag.
Qed.

Lemma contents_dead (h : list (list KT)) k :
  length h ≤ k → JSSet.contents h k = [].
Proof. intros Hk. unfold JSSet.contents. by rewrite lookup_ge_None_2. Qed.

Lemma contents_NoDup (h : list (list KT)) k :
  Forall NoDup h → NoDup (JSSet.contents h k).
Proof.
  intros Hh. unfold JSSet.contents.
  destruct (h !! k) as [s|] eqn:Hs; simpl; [|apply NoDup_nil_2].
  by eapply Forall_lookup_1.
Qed.

Lemma contents_insert_eq (h : list (list KT)) k s :
  k < length h → JSSet.contents (<[k := s]> h) k = s.
Proof. intros Hk. unfold JSSet.contents. by rewrite list_lookup_insert_eq. Qed.

Lemma contents_insert_ne (h : list (list KT)) k k' s :
  k ≠ k' → JSSet.contents (<[k := s]> h) k' = JSSet.contents h k'.
Proof. intros Hk. unfold JSSet.contents. by rewrite list_lookup_insert_ne. Qed.
End JSSet_facts.

Section JSMap_facts.
Context {V : Type}.
Implicit Types (m : list (ref * V)) (k : ref) (v : V).

Lemma has_true m k : JSMap.has m k = true ↔ k ∈ m.*1.
Proof. unfold JSMap.has. apply bool_decide_eq_true. Qed.

Lemma has_false m k : JSMap.has m k = false ↔ k ∉ m.*1.
Proof. unfold JSMap.has. apply bool_decide_eq_false. Qed.

Lemma set_keys_old m k v : k ∈ m.*1 → (JSMap.set m k v).*1 = m.*1.
Proof.
  induction m as [|[k' v'] m IH]; simpl; [by intros ?%elem_of_nil|].
  intros Hk. case_decide; simpl; [done|]. f_equal. apply IH.
  apply elem_of_cons in Hk as [?|?]; [congruence|done].
Qed.

Lemma set_keys_new m k v : k ∉ m.*1 → (JSMap.set m k v).*1 = m.*1 ++ [k].
Proof.
  induction m as [|[k' v'] m IH]; simpl; [done|].
  intros Hk. apply not_elem_of_cons in Hk as [? ?].
  case_decide; simpl; [congruence|]. f_equal. by apply IH.
Qed.

Lemma get_set_eq m k v : JSMap.get (JSMap.set m k v) k = Some v.
Proof.
  induction m as [|[k' v'] m IH]; simpl.
  - by rewrite decide_True.
  - case_decide; simpl; [by rewrite decide_True|by rewrite decide_False].
Qed.

Lemma get_set_ne m k k' v :
  k ≠ k' → JSMap.get (JSMap.set m k v) k' = JSMap.get m k'.
Proof.
  intros Hne. induction m as [|[k0 v0] m IH]; simpl.
  - by rewrite decide_False.
  - destruct (decide (k0 = k)) as [->|]; simpl.
    + by rewrite !decide_False.
    + by rewrite IH.
Qed.


Lemma get_elem_NoDup m k v : NoDup m.*1 → (k, v) ∈ m → JSMap.get m k = Some v.
Proof.
  induction m as [|[k0 v0] m IH]; simpl; [by intros _ ?%elem_of_nil|].
  intros [Hk0 Hm]%NoDup_cons [[= -> ->]|Hin]%elem_of_cons.
  - by rewrite decide_True.
  - rewrite decide_False; [by apply IH|].
    intros ->. apply Hk0. apply list_elem_of_fmap. by exists (k, v).
Qed.

Lemma delete_keys m k : (JSMap.delete m k).*1 = filter (λ k', k' ≠ k) m.*1.
Proof.
  unfold JSMap.delete. induction m as [|[k0 v0] m IH]; [done|].
  rewrite fmap_cons, !filter_cons.
  destruct (decide ((k0, v0).1 ≠ k)) as [Hd|Hd];
    [rewrite fmap_cons|]; by rewrite IH.
Qed.

Lemma delete_length m k :
  NoDup m.*1 → k ∈ m.*1 → S (length (JSMap.delete m k)) = length m.
Proof.
  unfold JSMap.delete. induction m as [|[k0 v0] m IH]; simpl.
  - by intros _ ?%elem_of_nil.
  - intros [Hk0 Hm]%NoDup_cons Hin. rewrite filter_cons. simpl.
    destruct (decide (k0 = k)) as [->|Hne].
    + rewrite decide_False by tauto. f_equal.
      clear IH Hin. induction m as [|[k1 v1] m IH]; [done|].
      rewrite filter_cons. simpl in *.
      apply not_elem_of_cons in Hk0 as [? ?].
      apply NoDup_cons in Hm as [? ?].
      rewrite decide_True by done. simpl. f_equal. by apply IH.
    + rewrite decide_True by done. simpl. f_equal. apply IH; [done|].
      apply elem_of_cons in Hin as [?|?]; [congruence|done].
Qed.
End JSMap_facts.

(** * Resolution of a candidate key *)

Section Resolution.
Context {KT : Type} `{Countable KT}.
Implicit Types (h : list (list KT)) (key ck k : ref).

Lemma insert_row_Permutation a l : SetKeyedMap.insert_row a l ≡ₚ a :: l.
Proof.
  induction l as [|b l IH]; simpl; [done|].
  case_decide; [done|]. rewrite IH. apply Permutation_swap.
Qed.

Lemma sort_rows_Permutation l : SetKeyedMap.sort_rows l ≡ₚ l.
Proof.
  induction l as [|a l IH]; simpl; [done|].
  by rewrite insert_row_Permutation, IH.
Qed.

Lemma same_elements_refl (s : list KT) : same_elements s s.
Proof. by intros e. Qed.

Lemma same_elements_sym (s1 s2 : list KT) :
  same_elements s1 s2 → same_elements s2 s1.
Proof. intros Hs e. symmetry. apply Hs. Qed.

Lemma same_elements_trans (s1 s2 s3 : list KT) :
  same_elements s1 s2 → same_elements s2 s3 → same_elements s1 s3.
Proof. intros H1 H2 e. rewrite (H1 e). apply H2. Qed.

Lemma same_elements_nil (s : list KT) : same_elements s [] → s = [].
Proof.
  destruct s as [|e s]; [done|]. intros Hs.
  exfalso. apply (elem_of_nil e), Hs. left.
Qed.

Lemma same_elements_length (s1 s2 : list KT) :
  NoDup s1 → NoDup s2 → same_elements s1 s2 → length s1 = length s2.
Proof. intros H1 H2 Hs. by rewrite (NoDup_Permutation s1 s2 H1 H2 Hs). Qed.

Lemma subset_same_elements (s1 s2 : list KT) :
  NoDup s1 → NoDup s2 → (∀ e, e ∈ s1 → e ∈ s2) → length s2 = length s1 →
  same_elements s2 s1.
Proof.
  intros H1 H2 Hsub Hlen e.
  assert (s1 ≡ₚ s2) as ->; [|done].
  apply submseteq_length_Permutation; [by apply NoDup_submseteq|lia].
Qed.

(** The fast path: a reference that is itself a stored key. *)
Lemma getCannonicalKey_fast {V} h (m : SetKeyedMap.t KT V) key :
  key ∈ canonicalKeys m → SetKeyedMap.getCannonicalKey h m key = Some key.
Proof.
  intros Hk. unfold SetKeyedMap.getCannonicalKey.
  by rewrite (proj2 (has_true _ _) Hk).
Qed.

(** What the search of the index returns, stated on the index alone. *)
Lemma getCannonicalKey_slow_Some {V} h (m : SetKeyedMap.t KT V) key ck :
  key ∉ canonicalKeys m →
  SetKeyedMap.getCannonicalKey h m key = Some ck →
  JSSet.contents h key ≠ [] ∧
  ∀ e, e ∈ JSSet.contents h key →
    JSSet.size h ck = length (JSSet.contents h key) ∧
    ∃ row, SetKeyedMap.subkeyToKeys m !! e = Some row ∧ ck ∈ row.
Proof.
  intros Hk. unfold SetKeyedMap.getCannonicalKey.
  rewrite (proj2 (has_false _ _) Hk). unfold JSSet.to_array.
  match goal with |- context [SetKeyedMap.sort_rows ?r] => set (rows := r) end.
  destruct (SetKeyedMap.sort_rows rows) as [|first rest] eqn:Hsort; [done|].
  intros [_ Hall]%find_some. rewrite forallb_forall in Hall.
  split.
  - intros Hnil. subst rows. rewrite Hnil in Hsort. done.
  - intros e He.
    assert (In (match SetKeyedMap.subkeyToKeys m !! e with
                | Some keys =>
                    filter (λ k, JSSet.size h k
                                 = length (JSSet.contents h key)) keys
                | None => []
                end) (first :: rest)) as Hck.
    { apply list_elem_of_In.
      rewrite <- Hsort, sort_rows_Permutation. subst rows.
      apply list_elem_of_In, in_map_iff. eexists; split; [done|].
      apply in_map_iff. exists e. split; [done|]. by apply list_elem_of_In. }
    apply Hall, bool_decide_eq_true in Hck.
    destruct (SetKeyedMap.subkeyToKeys m !! e) as [row|];
      [|by apply elem_of_nil in Hck].
    apply list_elem_of_filter in Hck as [? ?]. eauto.
Qed.

Lemma getCannonicalKey_slow_is_Some {V} h (m : SetKeyedMap.t KT V) key ck :
  key ∉ canonicalKeys m →
  JSSet.contents h key ≠ [] →
  JSSet.size h ck = length (JSSet.contents h key) →
  (∀ e, e ∈ JSSet.contents h key →
     ∃ row, SetKeyedMap.subkeyToKeys m !! e = Some row ∧ ck ∈ row) →
  is_Some (SetKeyedMap.getCannonicalKey h m key).
Proof.
  intros Hk Hne Hsize Hrows. unfold SetKeyedMap.getCannonicalKey.
  rewrite (proj2 (has_false _ _) Hk). unfold JSSet.to_array.
  match goal with |- context [SetKeyedMap.sort_rows ?r] => set (rows := r) end.
  assert (∀ row, row ∈ rows → ck ∈ row) as Hall.
  { intros row Hrow. subst rows.
    apply list_elem_of_In, in_map_iff in Hrow as (o & <- & Ho).
    apply in_map_iff in Ho as (e & <- & He%list_elem_of_In).
    destruct (Hrows e He) as (row & -> & Hck).
    apply list_elem_of_filter. done. }
  destruct (SetKeyedMap.sort_rows rows) as [|first rest] eqn:Hsort.
  - exfalso. pose proof (sort_rows_Permutation rows) as Hp.
    rewrite Hsort in Hp. apply Permutation_nil_l in Hp.
    subst rows. destruct (JSSet.contents h key); done.
  - match goal with |- is_Some ?o => destruct o eqn:Hfind end; [done|].
    exfalso. pose proof (find_none _ _ Hfind ck) as Hfalse.
    rewrite <- not_true_iff_false, forallb_forall in Hfalse.
    apply Hfalse.
    + apply list_elem_of_In, Hall.
      rewrite <- (sort_rows_Permutation rows), Hsort. left.
    + intros row Hrow%list_elem_of_In.
      apply bool_decide_eq_true, Hall.
      by rewrite <- (sort_rows_Permutation rows), Hsort.
Qed.

(** A key without elements that is not itself stored is never resolved. *)
Lemma getCannonicalKey_empty {V} h (m : SetKeyedMap.t KT V) key :
  key ∉ canonicalKeys m → JSSet.contents h key = [] →
  SetKeyedMap.getCannonicalKey h m key = None.
Proof.
  intros Hk Hnil.
  destruct (SetKeyedMap.getCannonicalKey h m key) as [ck|] eqn:Hg; [|done].
  by destruct (getCannonicalKey_slow_Some h m key ck Hk Hg).
Qed.

(** Under the invariant, a resolved key is a stored key with exactly the
    candidate's elements. *)
Lemma getCannonicalKey_Some {V} h (m : SetKeyedMap.t KT V) key ck :
  Inv h m → SetKeyedMap.getCannonicalKey h m key = Some ck →
  ck ∈ canonicalKeys m ∧ equivalent h ck key ∧
  (key ∉ canonicalKeys m → JSSet.contents h key ≠ []).
Proof.
  intros HI Hg. destruct (decide (key ∈ canonicalKeys m)) as [Hk|Hk].
  - rewrite getCannonicalKey_fast in Hg by done. injection Hg as <-.
    split_and!; [done|apply same_elements_refl|done].
  - destruct (getCannonicalKey_slow_Some h m key ck Hk Hg) as [Hne Hrows].
    assert (∀ e, e ∈ JSSet.contents h key →
              ck ∈ canonicalKeys m ∧ e ∈ JSSet.contents h ck) as Hsub.
    { intros e He. destruct (Hrows e He) as (_ & row & Hrow & Hck).
      eapply inv_row_sound; eauto. }
    split_and!; [|  |done].
    + destruct (JSSet.contents h key) as [|e s] eqn:Hc; [done|].
      apply (Hsub e). left.
    + apply subset_same_elements.
      * apply contents_NoDup, HI.
      * apply contents_NoDup, HI.
      * intros e He. by apply Hsub.
      * destruct (JSSet.contents h key) as [|e s] eqn:Hc; [done|].
        apply (Hrows e). left.
Qed.

(** Conversely a non-empty candidate resolves to the stored key that has
    its elements. *)
Lemma getCannonicalKey_equivalent {V} h (m : SetKeyedMap.t KT V) key ck :
  Inv h m → ck ∈ canonicalKeys m → JSSet.contents h key ≠ [] →
  equivalent h ck key →
  SetKeyedMap.getCannonicalKey h m key = Some ck.
Proof.
  intros HI Hck Hne Heq.
  assert (JSSet.contents h ck ≠ []) as Hne'.
  { intros Hnil. unfold equivalent in Heq. rewrite Hnil in Heq.
    by apply same_elements_sym, same_elements_nil in Heq. }
  destruct (decide (key ∈ canonicalKeys m)) as [Hk|Hk].
  - rewrite getCannonicalKey_fast by done. f_equal.
    symmetry. by apply (inv_unique h m HI).
  - destruct (getCannonicalKey_slow_is_Some h m key ck) as [ck' Hg];
      [done|done| |  |].
    + apply same_elements_length; [apply contents_NoDup, HI..|done].
    + intros e He. apply (inv_row_complete h m HI); [done|]. by apply Heq.
    + rewrite Hg. f_equal.
      destruct (getCannonicalKey_Some h m key ck' HI Hg) as (Hck' & Heq' & _).
      symmetry. apply (inv_unique h m HI); [done..|].
      eapply same_elements_trans; [done|]. by apply same_elements_sym.
Qed.
End Resolution.

(** * Maintenance of the index *)

Section Index.
Context {KT : Type} `{Countable KT}.
Implicit Types (h : list (list KT)) (idx : gmap KT (list ref)).

Lemma register_lookup ck idx subkeys e :
  NoDup subkeys →
  SetKeyedMap.register ck idx subkeys !! e =
    if decide (e ∈ subkeys) then Some (default [] (idx !! e) ++ [ck])
    else idx !! e.
Proof.
  unfold SetKeyedMap.register. revert idx.
  induction subkeys as [|a es IH]; intros idx Hnd; simpl.
  - done.
  - apply NoDup_cons in Hnd as [Ha Hes]. rewrite IH by done.
    destruct (decide (e = a)) as [->|Hne].
    + rewrite decide_False by done. rewrite decide_True by left.
      by rewrite lookup_insert_eq.
    + rewrite lookup_insert_ne by done.
      destruct (decide (e ∈ es)).
      * rewrite decide_True; [done|by right].
      * rewrite decide_False; [done|].
        intros [?|?]%elem_of_cons; done.
Qed.

Lemma unregister_lookup ck idx subkeys e :
  NoDup subkeys →
  SetKeyedMap.unregister ck idx subkeys !! e =
    if decide (e ∈ subkeys) then
      match idx !! e with
      | Some row =>
          match filter (λ k, k ≠ ck) row with
          | [] => None
          | k :: row' => Some (k :: row')
          end
      | None => None
      end
    else idx !! e.
Proof.
  unfold SetKeyedMap.unregister. revert idx.
  induction subkeys as [|a es IH]; intros idx Hnd; simpl.
  - done.
  - apply NoDup_cons in Hnd as [Ha Hes]. rewrite IH by done.
    destruct (decide (e = a)) as [->|Hne].
    + rewrite decide_False by done. rewrite decide_True by left.
      destruct (idx !! a) as [row|] eqn:Hrow; [|done].
      destruct (filter (λ k, k ≠ ck) row).
      * by rewrite lookup_delete_eq.
      * by rewrite lookup_insert_eq.
    + assert (∀ idx', (match idx !! a with
                       | Some keylist =>
                           match filter (λ k, k ≠ ck) keylist with
                           | [] => base.delete a idx
                           | _ :: _ =>
                               <[a := filter (λ k, k ≠ ck) keylist]> idx
                           end
                       | None => idx
                       end) = idx' → idx' !! e = idx !! e) as Hstep.
      { intros idx' <-. destruct (idx !! a) as [row|]; [|done].
        destruct (filter (λ k, k ≠ ck) row).
        - by rewrite lookup_delete_ne.
        - by rewrite lookup_insert_ne. }
      rewrite (Hstep _ eq_refl).
      destruct (decide (e ∈ es)).
      * rewrite decide_True; [done|by right].
      * rewrite decide_False; [done|].
        intros [?|?]%elem_of_cons; done.
Qed.
End Index.

(** * Preservation of the invariants *)

Section Preservation.
Context {KT : Type} `{Countable KT}.
Implicit Types (h : list (list KT)) (key ck k : ref).

Lemma Inv_empty {V} h : Forall NoDup h → Inv h (@SetKeyedMap.empty KT _ _ V).
Proof.
  intros Hh. split; simpl; try done.
  all: unfold canonicalKeys; simpl.
  - by intros k ?%elem_of_nil.
  - apply NoDup_nil_2.
  - by intros k e ?%elem_of_nil.
  - by intros k1 k2 ?%elem_of_nil.
Qed.

(** The container only reads the objects that are its canonical keys. *)
Lemma Inv_heap {V} h h' (m : SetKeyedMap.t KT V) :
  Inv h m → Forall NoDup h' → length h ≤ length h' →
  (∀ k, k ∈ canonicalKeys m → JSSet.contents h' k = JSSet.contents h k) →
  Inv h' m.
Proof.
  intros HI Hh' Hlen Hsame. split.
  - done.
  - intros k Hk. pose proof (inv_live h m HI k Hk). lia.
  - apply HI.
  - intros e row k Hrow Hk.
    destruct (inv_row_sound h m HI e row k Hrow Hk) as [Hck He].
    by rewrite Hsame.
  - apply HI.
  - intros k e Hk He. rewrite Hsame in He by done.
    by apply (inv_row_complete h m HI).
  - intros k1 k2 H1 H2. unfold equivalent. rewrite !Hsame by done.
    by apply (inv_unique h m HI).
Qed.

Lemma Inv_alloc {V} h (m : SetKeyedMap.t KT V) s :
  Inv h m → NoDup s → Inv (h ++ [s]) m.
Proof.
  intros HI Hs. apply (Inv_heap h); [done| |rewrite length_app; lia|].
  - apply Forall_app. split; [apply HI|by apply Forall_singleton].
  - intros k Hk. apply contents_app_l. by apply (inv_live h m HI).
Qed.

Lemma Inv_mutate {V} h (m : SetKeyedMap.t KT V) k s :
  Inv h m → k ∉ canonicalKeys m → NoDup s → Inv (<[k := s]> h) m.
Proof.
  intros HI Hk Hs. apply (Inv_heap h); [done| |by rewrite length_insert|].
  - apply Forall_insert; [apply HI|done].
  - intros k' Hk'. apply contents_insert_ne. by intros ->.
Qed.

Lemma Inv_clear {V} h (m : SetKeyedMap.t KT V) :
  Inv h m → Inv h (SetKeyedMap.clear m).
Proof. intros HI. apply Inv_empty, HI. Qed.

(** [set] on a candidate that is not resolved: the shape of the result. *)
Lemma set_new {V} h (m : SetKeyedMap.t KT V) key v :
  Forall NoDup h →
  SetKeyedMap.getCannonicalKey h m key = None →
  SetKeyedMap.set h m key v =
    (h ++ [JSSet.contents h key],
     SetKeyedMap.Build (JSMap.set (SetKeyedMap.valueMap m) (length h) v)
       (SetKeyedMap.register (length h) (SetKeyedMap.subkeyToKeys m)
          (JSSet.contents h key))).
Proof.
  intros Hh Hg. unfold SetKeyedMap.set. rewrite Hg.
  unfold SetKeyedMap.createCanonicalKey, JSSet.alloc, JSSet.to_array.
  rewrite from_NoDup by by apply contents_NoDup.
  by rewrite contents_alloc.
Qed.

Lemma set_existing {V} h (m : SetKeyedMap.t KT V) key ck v :
  SetKeyedMap.getCannonicalKey h m key = Some ck →
  SetKeyedMap.set h m key v =
    (h, SetKeyedMap.Build (JSMap.set (SetKeyedMap.valueMap m) ck v)
          (SetKeyedMap.subkeyToKeys m)).
Proof. intros Hg. unfold SetKeyedMap.set. by rewrite Hg. Qed.

Lemma Inv_set {V} h (m : SetKeyedMap.t KT V) key v :
  Inv h m →
  Inv (SetKeyedMap.set h m key v).1 (SetKeyedMap.set h m key v).2.
Proof.
  intros HI.
  destruct (SetKeyedMap.getCannonicalKey h m key) as [ck|] eqn:Hg.
  - rewrite (set_existing h m key ck v Hg). simpl.
    destruct (getCannonicalKey_Some h m key ck HI Hg) as (Hck & _).
    destruct HI as [H1 H2 H3 H4 H5 H6 H7].
    split; unfold canonicalKeys in *; simpl;
      rewrite ?set_keys_old by done; done.
  - rewrite (set_new h m key v (inv_heap h m HI) Hg). simpl.
    assert (length h ∉ canonicalKeys m) as Hfresh.
    { intros Hin%(inv_live h m HI). lia. }
    assert (NoDup (JSSet.contents h key)) as Hnd
      by apply contents_NoDup, HI.
    assert (∀ k, k ∈ canonicalKeys m →
              JSSet.contents (h ++ [JSSet.contents h key]) k
              = JSSet.contents h k) as Hold.
    { intros k Hk. apply contents_app_l. by apply (inv_live h m HI). }
    pose proof (contents_alloc h (JSSet.contents h key)) as Hnew.
    split; unfold canonicalKeys in *; simpl;
      rewrite ?set_keys_new by done.
    + apply Forall_app. split; [apply HI|by apply Forall_singleton].
    + intros k [Hk| ->%list_elem_of_singleton]%elem_of_app;
        rewrite length_app; simpl; [|lia].
      pose proof (inv_live h m HI k Hk). lia.
    + apply NoDup_app. split_and!; [apply HI| |apply NoDup_singleton].
      intros k Hk ->%list_elem_of_singleton. done.
    + intros e row k. rewrite register_lookup by done.
      case_decide as He.
      * intros [= <-] [Hk| ->%list_elem_of_singleton]%elem_of_app.
        -- destruct (SetKeyedMap.subkeyToKeys m !! e) as [row|] eqn:Hrow;
             simpl in Hk; [|by apply elem_of_nil in Hk].
           destruct (inv_row_sound h m HI e row k Hrow Hk) as [Hck Hek].
           split; [apply elem_of_app; by left|]. by rewrite Hold.
        -- split; [apply elem_of_app; right; left|]. by rewrite Hnew.
      * intros Hrow Hk.
        destruct (inv_row_sound h m HI e row k Hrow Hk) as [Hck Hek].
        split; [apply elem_of_app; by left|]. by rewrite Hold.
    + intros e. rewrite register_lookup by done. case_decide.
      * intros [= Hnil]. by apply app_nil in Hnil as [_ ?].
      * apply HI.
    + intros k e [Hk| ->%list_elem_of_singleton]%elem_of_app.
      * rewrite Hold by done. intros He.
        destruct (inv_row_complete h m HI k e Hk He) as (row & Hrow & Hin).
        rewrite register_lookup by done. case_decide.
        -- eexists; split; [done|]. rewrite Hrow. simpl.
           apply elem_of_app. by left.
        -- eauto.
      * rewrite Hnew. intros He. rewrite register_lookup by done.
        rewrite decide_True by done. eexists; split; [done|].
        apply elem_of_app. right. left.
    + assert (∀ k, k ∈ canonicalKeys m →
                JSSet.contents h key ≠ [] →
                ¬ equivalent h k key) as Hno.
      { intros k Hk Hne Heq.
        by rewrite (getCannonicalKey_equivalent h m key k HI Hk Hne Heq)
          in Hg. }
      intros k1 k2 [H1| ->%list_elem_of_singleton]%elem_of_app
        [H2| ->%list_elem_of_singleton]%elem_of_app; unfold equivalent;
        rewrite ?Hnew, ?Hold by done; try done.
      * by apply (inv_unique h m HI).
      * intros Hne Heq. exfalso. apply (Hno k1 H1); [|done].
        intros Hnil. rewrite Hnil in Heq. by apply same_elements_nil in Heq.
      * intros Hne Heq. exfalso. apply (Hno k2 H2); [done|].
        by apply same_elements_sym.
Qed.

Lemma delete_found {V} h (m : SetKeyedMap.t KT V) key ck :
  SetKeyedMap.getCannonicalKey h m key = Some ck →
  SetKeyedMap.delete h m key =
    (SetKeyedMap.Build (JSMap.delete (SetKeyedMap.valueMap m) ck)
       (SetKeyedMap.unregister ck (SetKeyedMap.subkeyToKeys m)
          (JSSet.contents h ck)), true).
Proof. intros Hg. unfold SetKeyedMap.delete. by rewrite Hg. Qed.

Lemma delete_missing {V} h (m : SetKeyedMap.t KT V) key :
  SetKeyedMap.getCannonicalKey h m key = None →
  SetKeyedMap.delete h m key = (m, false).
Proof. intros Hg. unfold SetKeyedMap.delete. by rewrite Hg. Qed.

Lemma Inv_delete {V} h (m : SetKeyedMap.t KT V) key :
  Inv h m → Inv h (SetKeyedMap.delete h m key).1.
Proof.
  intros HI.
  destruct (SetKeyedMap.getCannonicalKey h m key) as [ck|] eqn:Hg;
    [|by rewrite (delete_missing h m key Hg)].
  rewrite (delete_found h m key ck Hg). simpl.
  assert (NoDup (JSSet.contents h ck)) as Hnd by apply contents_NoDup, HI.
  split; unfold canonicalKeys in *; simpl; rewrite ?delete_keys.
  - apply HI.
  - intros k [_ Hk]%list_elem_of_filter. by apply (inv_live h m HI).
  - apply NoDup_filter, HI.
  - intros e row k. rewrite unregister_lookup by done.
    case_decide as He.
    + destruct (SetKeyedMap.subkeyToKeys m !! e) as [row0|] eqn:Hrow;
        [|done].
      destruct (filter (λ k, k ≠ ck) row0) as [|k0 row1] eqn:Hf; [done|].
      intros [= <-] Hk. rewrite <- Hf in Hk.
      apply list_elem_of_filter in Hk as [Hne Hk].
      destruct (inv_row_sound h m HI e row0 k Hrow Hk) as [Hck Hek].
      split; [by apply list_elem_of_filter|done].
    + intros Hrow Hk.
      destruct (inv_row_sound h m HI e row k Hrow Hk) as [Hck Hek].
      split; [|done]. apply list_elem_of_filter. split; [|done].
      by intros ->.
  - intros e. rewrite unregister_lookup by done. case_decide.
    + destruct (SetKeyedMap.subkeyToKeys m !! e) as [row0|]; [|done].
      by destruct (filter (λ k, k ≠ ck) row0).
    + apply HI.
  - intros k e [Hne Hk]%list_elem_of_filter He.
    destruct (inv_row_complete h m HI k e Hk He) as (row & Hrow & Hin).
    rewrite unregister_lookup by done. case_decide; [|by eauto].
    rewrite Hrow.
    assert (k ∈ filter (λ k, k ≠ ck) row) as Hin'
      by by apply list_elem_of_filter.
    destruct (filter (λ k, k ≠ ck) row) as [|k0 row1];
      [by apply elem_of_nil in Hin'|eauto].
  - intros k1 k2 [_ H1]%list_elem_of_filter [_ H2]%list_elem_of_filter.
    by apply (inv_unique h m HI).
Qed.
End Preservation.

(** * Iteration *)

Section Iteration.
Context {KT : Type} `{Countable KT}.
Implicit Types (h ext : list (list KT)) (key ck k : ref).

Lemma copy_contents h ext k :
  Forall NoDup h → k < length h →
  JSSet.from (JSSet.to_array (JSSet.contents (h ++ ext) k))
  = JSSet.contents h k.
Proof.
  intros Hh Hk. unfold JSSet.to_array.
  rewrite contents_app_l by done. by apply from_NoDup, contents_NoDup.
Qed.

Lemma keys_loop {V} h (l : list (ref * V)) ext acc :
  Forall NoDup h → (∀ k, k ∈ l.*1 → k < length h) →
  foldl SetKeyedMap.keys_step (h ++ ext, acc) l =
    (h ++ ext ++ List.map (JSSet.contents h) l.*1,
     acc ++ seq (length (h ++ ext)) (length l)).
Proof.
  intros Hh. revert ext acc.
  induction l as [|[k v] l IH]; intros ext acc Hl; simpl.
  - by rewrite !app_nil_r.
  - unfold SetKeyedMap.keys_step at 2. simpl.
    unfold SetKeyedMap.createUserFacingKey, JSSet.alloc.
    rewrite copy_contents by (try apply Hl; try left; done).
    rewrite <- (assoc_L (++) h). rewrite IH by (intros; apply Hl; by right).
    rewrite <- !(assoc_L (++)). simpl. do 3 f_equal.
    rewrite !length_app. simpl. f_equal. lia.
Qed.

Lemma entries_loop {V} h (l : list (ref * V)) ext acc :
  Forall NoDup h → (∀ k, k ∈ l.*1 → k < length h) →
  foldl SetKeyedMap.entries_step (h ++ ext, acc) l =
    (h ++ ext ++ List.map (JSSet.contents h) l.*1,
     acc ++ zip (seq (length (h ++ ext)) (length l)) l.*2).
Proof.
  intros Hh. revert ext acc.
  induction l as [|[k v] l IH]; intros ext acc Hl; simpl.
  - by rewrite !app_nil_r.
  - unfold SetKeyedMap.entries_step at 2. simpl.
    unfold SetKeyedMap.createUserFacingKey, JSSet.alloc.
    rewrite copy_contents by (try apply Hl; try left; done).
    rewrite <- (assoc_L (++) h). rewrite IH by (intros; apply Hl; by right).
    rewrite <- !(assoc_L (++)). simpl. do 3 f_equal.
    rewrite !length_app. simpl. do 2 f_equal. lia.
Qed.

Lemma reduce_loop {V T} (f : T → V → list KT → T) h (l : list (ref * V))
    ext acc :
  Forall NoDup h → (∀ k, k ∈ l.*1 → k < length h) →
  foldl (SetKeyedMap.reduce_step f) (h ++ ext, acc) l =
    (h ++ ext ++ List.map (JSSet.contents h) l.*1,
     foldl (λ a (kv : ref * V), f a kv.2 (JSSet.contents h kv.1)) acc l).
Proof.
  intros Hh. revert ext acc.
  induction l as [|[k v] l IH]; intros ext acc Hl; simpl.
  - by rewrite !app_nil_r.
  - unfold SetKeyedMap.reduce_step at 2. simpl.
    unfold SetKeyedMap.createUserFacingKey, JSSet.alloc.
    rewrite copy_contents by (try apply Hl; try left; done).
    rewrite contents_alloc.
    rewrite <- (assoc_L (++) h). rewrite IH by (intros; apply Hl; by right).
    by rewrite <- !(assoc_L (++)).
Qed.

Lemma keys_spec {V} h (m : SetKeyedMap.t KT V) :
  Inv h m →
  SetKeyedMap.keys h m =
    (h ++ List.map (JSSet.contents h) (canonicalKeys m),
     seq (length h) (SetKeyedMap.size m)).
Proof.
  intros HI. unfold SetKeyedMap.keys.
  pose proof (keys_loop h (SetKeyedMap.valueMap m) [] []) as Hl.
  rewrite !app_nil_r in Hl. rewrite Hl; [done|apply HI|apply HI].
Qed.

Lemma entries_spec {V} h (m : SetKeyedMap.t KT V) :
  Inv h m →
  SetKeyedMap.entries h m =
    (h ++ List.map (JSSet.contents h) (canonicalKeys m),
     zip (seq (length h) (SetKeyedMap.size m)) (SetKeyedMap.values m)).
Proof.
  intros HI. unfold SetKeyedMap.entries.
  pose proof (entries_loop h (SetKeyedMap.valueMap m) [] []) as Hl.
  rewrite !app_nil_r in Hl. rewrite Hl; [done|apply HI|apply HI].
Qed.

Lemma reduce_spec {V T} (f : T → V → list KT → T) h
    (m : SetKeyedMap.t KT V) i :
  Inv h m →
  SetKeyedMap.reduce h m f i =
    (h ++ List.map (JSSet.contents h) (canonicalKeys m),
     foldl (λ a (sv : list KT * V), f a sv.2 sv.1) i (view h m)).
Proof.
  intros HI. unfold SetKeyedMap.reduce.
  pose proof (reduce_loop f h (SetKeyedMap.valueMap m) [] i) as Hl.
  rewrite !app_nil_r in Hl. rewrite Hl; [|apply HI|apply HI].
  f_equal. unfold view. clear Hl. generalize i.
  induction (SetKeyedMap.valueMap m) as [|kv l IH]; intros a; simpl; [done|].
  apply IH.
Qed.

(** Any loop that copies the key of each entry grows the heap by exactly
    those copies. *)
Lemma copy_loop_heap {V A}
    (step : list (list KT) * A → ref * V → list (list KT) * A)
    h (l : list (ref * V)) ext a :
  (∀ st kv,
     (step st kv).1
     = st.1 ++ [JSSet.from (JSSet.to_array (JSSet.contents st.1 kv.1))]) →
  Forall NoDup h → (∀ k, k ∈ l.*1 → k < length h) →
  (foldl step (h ++ ext, a) l).1
  = h ++ ext ++ List.map (JSSet.contents h) l.*1.
Proof.
  intros Hstep Hh. revert ext a.
  induction l as [|[k v] l IH]; intros ext a Hl; simpl.
  - by rewrite !app_nil_r.
  - destruct (step (h ++ ext, a) (k, v)) as [h1 a1] eqn:Hs.
    pose proof (Hstep (h ++ ext, a) (k, v)) as Hh1.
    rewrite Hs in Hh1. simpl in Hh1.
    rewrite copy_contents in Hh1 by (try apply Hl; try left; done).
    rewrite Hh1, <- (assoc_L (++) h).
    rewrite IH by (intros; apply Hl; by right).
    by rewrite <- !(assoc_L (++)).
Qed.

(** A loop that may [return] early copies a prefix of the keys. *)
Lemma for_entries_heap {V R} (body : ref → V → list KT → option R)
    h (l : list (ref * V)) ext :
  Forall NoDup h → (∀ k, k ∈ l.*1 → k < length h) →
  ∃ n, (SetKeyedMap.for_entries body (h ++ ext) l).1
       = h ++ ext ++ List.map (JSSet.contents h) (take n l.*1).
Proof.
  intros Hh. revert ext.
  induction l as [|[k v] l IH]; intros ext Hl; simpl.
  - exists 0. by rewrite !app_nil_r.
  - unfold SetKeyedMap.createUserFacingKey, JSSet.alloc.
    rewrite copy_contents by (try apply Hl; try left; done).
    destruct (body _ v _) as [r|].
    + exists 1. simpl. rewrite ?take_0. simpl.
      by rewrite <- !(assoc_L (++)).
    + rewrite <- (assoc_L (++) h).
      destruct (IH (ext ++ [JSSet.contents h k])) as [n Hn];
        [intros; apply Hl; by right|].
      exists (S n). rewrite Hn. simpl. by rewrite <- !(assoc_L (++)).
Qed.

Lemma Inv_copies {V} h (m : SetKeyedMap.t KT V) (l : list ref) :
  Inv h m → Inv (h ++ List.map (JSSet.contents h) l) m.
Proof.
  intros HI. apply (Inv_heap h); [done| |rewrite length_app; lia|].
  - apply Forall_app. split; [apply HI|].
    apply Forall_forall. intros s (k & <- & _)%list_elem_of_In%in_map_iff.
    apply contents_NoDup, HI.
  - intros k Hk. apply contents_app_l. by apply (inv_live h m HI).
Qed.
Lemma Inv_copy_loop {V A}
    (step : list (list KT) * A → ref * V → list (list KT) * A)
    h (m : SetKeyedMap.t KT V) a :
  (∀ st kv,
     (step st kv).1
     = st.1 ++ [JSSet.from (JSSet.to_array (JSSet.contents st.1 kv.1))]) →
  Inv h m → Inv (foldl step (h, a) (SetKeyedMap.valueMap m)).1 m.
Proof.
  intros Hstep HI.
  pose proof (copy_loop_heap step h (SetKeyedMap.valueMap m) [] a Hstep)
    as Hl.
  rewrite !app_nil_r in Hl. rewrite Hl; [|apply HI..].
  by apply Inv_copies.
Qed.

Lemma Inv_for_entries {V R} (body : ref → V → list KT → option R)
    h (m : SetKeyedMap.t KT V) :
  Inv h m →
  Inv (SetKeyedMap.for_entries body h (SetKeyedMap.valueMap m)).1 m.
Proof.
  intros HI.
  destruct (for_entries_heap body h (SetKeyedMap.valueMap m) [])
    as [n Hn]; [apply HI..|].
  rewrite !app_nil_r in Hn. rewrite Hn. by apply Inv_copies.
Qed.
End Iteration.

(** * Derived containers *)

Section Derived.
Context {KT : Type} `{Countable KT}.
Implicit Types (h ext : list (list KT)) (key ck k : ref).

Lemma set_new_entry {V} (m : list (ref * V)) k v :
  k ∉ m.*1 → JSMap.set m k v = m ++ [(k, v)].
Proof.
  induction m as [|[k' v'] m IH]; simpl; [done|].
  intros [? ?]%not_elem_of_cons. rewrite decide_False by done.
  f_equal. by apply IH.
Qed.

Lemma view_heap {V} h h' (m : SetKeyedMap.t KT V) :
  (∀ k, k ∈ canonicalKeys m → JSSet.contents h' k = JSSet.contents h k) →
  view h' m = view h m.
Proof.
  unfold view, canonicalKeys.
  induction (SetKeyedMap.valueMap m) as [|[k v] l IH]; intros Hl; simpl;
    [done|].
  rewrite Hl by left. f_equal. apply IH. intros k' Hk'. apply Hl. by right.
Qed.

Lemma view_elem {V} h (m : SetKeyedMap.t KT V) s v :
  (s, v) ∈ view h m →
  ∃ k, (k, v) ∈ SetKeyedMap.valueMap m ∧ JSSet.contents h k = s.
Proof.
  unfold view. intros ([k v'] & [= <- <-] & Hin)%list_elem_of_In%in_map_iff.
  exists k. split; [by apply list_elem_of_In|done].
Qed.


Lemma insert_last {A} (l : list A) (x y : A) :
  <[length l := y]> (l ++ [x]) = l ++ [y].
Proof.
  rewrite insert_app_r_alt by lia. by rewrite Nat.sub_diag.
Qed.



Lemma Inv_app {V} h (m : SetKeyedMap.t KT V) ext :
  Inv h m → Forall NoDup ext → Inv (h ++ ext) m.
Proof.
  intros HI Hext. apply (Inv_heap h); [done| |rewrite length_app; lia|].
  - apply Forall_app. split; [apply HI|done].
  - intros k Hk. apply contents_app_l. by apply (inv_live h m HI).
Qed.

Lemma same_keyb_spec (s' s : list KT) :
  same_keyb s' s = true ↔ s ≠ [] ∧ same_elements s' s.
Proof.
  unfold same_keyb. destruct s as [|a s]; [by split; [|intros [? _]]|].
  rewrite andb_true_iff, !forallb_forall. split.
  - intros [H1 H2]. split; [done|]. intros e. split; intros He.
    + apply list_elem_of_In, H1 in He. by apply bool_decide_eq_true in He.
    + apply list_elem_of_In, H2 in He. by apply bool_decide_eq_true in He.
  - intros [_ Hs]. split; intros e He%list_elem_of_In;
      apply bool_decide_eq_true; by apply Hs.
Qed.

Lemma set_as_map {V} (m : list (ref * V)) ck v :
  NoDup m.*1 → ck ∈ m.*1 →
  JSMap.set m ck v
  = List.map (λ kv : ref * V, if decide (kv.1 = ck) then (kv.1, v) else kv) m.
Proof.
  induction m as [|[k' v'] m IH]; simpl; [by intros _ ?%elem_of_nil|].
  intros [Hk' Hnd]%NoDup_cons Hin. case_decide as Hd; simpl.
  - subst k'. f_equal. symmetry. rewrite <- (map_id m) at 2.
    apply map_ext_in. intros [k0 v0] Hk0%list_elem_of_In. simpl.
    rewrite decide_False; [done|]. intros ->. apply Hk'.
    apply list_elem_of_fmap. by exists (ck, v0).
  - f_equal. apply IH; [done|].
    apply elem_of_cons in Hin as [?|?]; [congruence|done].
Qed.

(** [set] through a caller's key, read on the entries. *)
Lemma set_view {V} h (m : SetKeyedMap.t KT V) k v :
  Inv h m → k ∉ canonicalKeys m →
  view (SetKeyedMap.set h m k v).1 (SetKeyedMap.set h m k v).2
  = view_set (view h m) (JSSet.contents h k) v.
Proof.
  intros HI Hk. unfold view_set.
  destruct (SetKeyedMap.getCannonicalKey h m k) as [ck|] eqn:Hg.
  - rewrite (set_existing h m k ck v Hg). simpl.
    destruct (getCannonicalKey_Some h m k ck HI Hg) as (Hck & Heq & Hne).
    specialize (Hne Hk).
    assert (same_keyb (JSSet.contents h ck) (JSSet.contents h k) = true)
      as Hsame by by apply same_keyb_spec.
    assert (existsb (λ e : list KT * V, same_keyb e.1 (JSSet.contents h k))
              (view h m) = true) as ->.
    { apply existsb_exists.
      apply list_elem_of_fmap in Hck as ([ck' v0] & -> & Hin).
      exists (JSSet.contents h ck', v0). split; [|done].
      unfold view. apply in_map_iff. exists (ck', v0).
      split; [done|by apply list_elem_of_In]. }
    unfold view. simpl. rewrite set_as_map by (apply HI || done).
    rewrite !map_map. apply map_ext_in.
    intros [k0 v0] Hin%list_elem_of_In. simpl.
    case_decide as Hd; simpl.
    + subst k0. by rewrite Hsame.
    + destruct (same_keyb (JSSet.contents h k0) (JSSet.contents h k))
        eqn:Hs; [exfalso|done].
      apply same_keyb_spec in Hs as [_ Hs]. apply Hd.
      symmetry. apply (inv_unique h m HI); [done| | |].
      * apply list_elem_of_fmap. by exists (k0, v0).
      * intros Hnil. unfold equivalent in Heq. rewrite Hnil in Heq.
        by apply same_elements_sym, same_elements_nil in Heq.
      * eapply same_elements_trans; [done|]. by apply same_elements_sym.
  - assert (existsb (λ e : list KT * V, same_keyb e.1 (JSSet.contents h k))
              (view h m) = false) as ->.
    { apply not_true_iff_false.
      intros ([s v0] & (ck & Hin & <-)%list_elem_of_In%view_elem & Hs)%existsb_exists.
      simpl in Hs. apply same_keyb_spec in Hs as [Hne Hs].
      assert (SetKeyedMap.getCannonicalKey h m k = Some ck) as Hg'.
      { apply getCannonicalKey_equivalent; [done| |done|done].
        apply list_elem_of_fmap. by exists (ck, v0). }
      congruence. }
    rewrite (set_new h m k v (inv_heap h m HI) Hg). simpl.
    assert (length h ∉ (SetKeyedMap.valueMap m).*1) as Hfresh.
    { intros Hin%(inv_live h m HI). lia. }
    rewrite set_new_entry by done.
    unfold view. simpl. rewrite map_app. simpl. rewrite contents_alloc.
    f_equal. apply map_ext_in. intros [ck v'] Hin%list_elem_of_In. simpl.
    f_equal. apply contents_app_l. apply (inv_live h m HI).
    apply list_elem_of_fmap. by exists (ck, v').
Qed.

Lemma set_shape {V} h (m : SetKeyedMap.t KT V) k v :
  Inv h m →
  (∃ ext, (SetKeyedMap.set h m k v).1 = h ++ ext) ∧
  ∀ dk, dk ∈ canonicalKeys (SetKeyedMap.set h m k v).2 →
        dk ∈ canonicalKeys m ∨ dk = length h.
Proof.
  intros HI.
  destruct (SetKeyedMap.getCannonicalKey h m k) as [ck|] eqn:Hg.
  - rewrite (set_existing h m k ck v Hg). simpl.
    destruct (getCannonicalKey_Some h m k ck HI Hg) as (Hck & _).
    split; [exists []; by rewrite app_nil_r|].
    unfold canonicalKeys. simpl. rewrite set_keys_old by done. by left.
  - rewrite (set_new h m k v (inv_heap h m HI) Hg). simpl.
    split; [by eexists|].
    unfold canonicalKeys. simpl.
    rewrite set_keys_new by (intros Hin%(inv_live h m HI); lia).
    intros dk [?| ->%list_elem_of_singleton]%elem_of_app; [by left|by right].
Qed.

(** The loop of [filter] and [mapOver] for any callback: each kept entry
    is passed to [set] under the key as the callback left it. *)
Lemma derive_loop {V T} (g : V → list KT → option T * list KT)
    (step : list (list KT) * SetKeyedMap.t KT T → ref * V →
            list (list KT) * SetKeyedMap.t KT T) h :
  (∀ st kv,
     step st kv =
       let h1 := st.1 ++ [JSSet.from (JSSet.to_array
                                        (JSSet.contents st.1 kv.1))] in
       let r := g kv.2 (JSSet.contents h1 (length st.1)) in
       let h2 := <[length st.1 := JSSet.from r.2]> h1 in
       match r.1 with
       | Some t => SetKeyedMap.set h2 st.2 (length st.1) t
       | None => (h2, st.2)
       end) →
  Forall NoDup h →
  ∀ (todo : list (ref * V)) st,
    (∀ k, k ∈ todo.*1 → k < length h) →
    Inv st.1 st.2 →
    (∃ ext, st.1 = h ++ ext) →
    (∀ dk, dk ∈ canonicalKeys st.2 → length h ≤ dk) →
    Inv (foldl step st todo).1 (foldl step st todo).2 ∧
    (∃ ext, (foldl step st todo).1 = h ++ ext) ∧
    (∀ dk, dk ∈ canonicalKeys (foldl step st todo).2 → length h ≤ dk) ∧
    view (foldl step st todo).1 (foldl step st todo).2 =
      foldl (λ vw (kv : ref * V),
               match (g kv.2 (JSSet.contents h kv.1)).1 with
               | Some t =>
                   view_set vw
                     (JSSet.from (g kv.2 (JSSet.contents h kv.1)).2) t
               | None => vw
               end)
        (view st.1 st.2) todo.
Proof.
  intros Hstep Hh todo.
  induction todo as [|[ck v] todo IH]; intros [h1 d] Hlive HId Hext Hfresh;
    [done|].
  simpl in *. destruct Hext as [ext ->].
  assert (ck < length h) as Hck by (apply Hlive; left).
  rewrite Hstep. simpl.
  rewrite copy_contents, contents_alloc, insert_last by done.
  set (r := g v (JSSet.contents h ck)).
  set (h2 := (h ++ ext) ++ [JSSet.from r.2]).
  assert (Inv h2 d) as HId2 by (apply Inv_alloc; [done|apply NoDup_from]).
  assert (view h2 d = view (h ++ ext) d) as Hview2.
  { apply view_heap. intros k Hk. apply contents_app_l.
    by apply (inv_live _ d HId). }
  assert (length (h ++ ext) ∉ canonicalKeys d) as Hkey.
  { intros Hin%(inv_live _ d HId). lia. }
  assert (JSSet.contents h2 (length (h ++ ext)) = JSSet.from r.2) as Hc
    by apply contents_alloc.
  destruct r.1 as [t|] eqn:Hr.
  - pose proof (set_view h2 d (length (h ++ ext)) t HId2 Hkey) as Hsv.
    rewrite Hc, Hview2 in Hsv. rewrite <- Hsv.
    apply IH.
    + intros k Hk. apply Hlive. by right.
    + by apply Inv_set.
    + destruct (set_shape h2 d (length (h ++ ext)) t HId2) as [[ext' ->] _].
      subst h2. exists ((ext ++ [JSSet.from r.2]) ++ ext').
      by rewrite <- !(assoc_L (++)).
    + intros dk Hdk.
      destruct (set_shape h2 d (length (h ++ ext)) t HId2) as [_ Hkeys].
      destruct (Hkeys dk Hdk) as [?| ->].
      * by apply Hfresh.
      * subst h2. rewrite !length_app. simpl. lia.
  - rewrite <- Hview2. apply IH; simpl.
    + intros k Hk. apply Hlive. by right.
    + done.
    + subst h2. exists (ext ++ [JSSet.from r.2]).
      by rewrite <- (assoc_L (++)).
    + done.
Qed.

(** [filter] and [mapOver] for any callback. *)
Lemma filter_general {V} h (m : SetKeyedMap.t KT V)
    (p : V → list KT → bool * list KT) :
  Inv h m →
  Inv (SetKeyedMap.filter h m p).1 (SetKeyedMap.filter h m p).2 ∧
  (∃ ext, (SetKeyedMap.filter h m p).1 = h ++ ext) ∧
  (∀ dk, dk ∈ canonicalKeys (SetKeyedMap.filter h m p).2 → length h ≤ dk) ∧
  view (SetKeyedMap.filter h m p).1 (SetKeyedMap.filter h m p).2
  = view_set_all [] (kept_by p (view h m)).
Proof.
  intros HI.
  destruct (derive_loop
              (λ v s, (if (p v s).1 then Some v else None, (p v s).2))
              (SetKeyedMap.filter_step p) h) with
    (todo := SetKeyedMap.valueMap m) (st := (h, @SetKeyedMap.empty KT _ _ V))
    as (H1 & H2 & H3 & H4).
  - intros [h1 d] [ck v]. unfold SetKeyedMap.filter_step. simpl.
    unfold SetKeyedMap.createUserFacingKey, JSSet.alloc.
    destruct (p v _) as [keep s]. simpl. by destruct keep.
  - apply HI.
  - apply HI.
  - apply Inv_empty, HI.
  - exists []. simpl. by rewrite app_nil_r.
  - unfold canonicalKeys. simpl. by intros dk ?%elem_of_nil.
  - unfold SetKeyedMap.filter. split_and!; [done..|].
    rewrite H4. clear H1 H2 H3 H4 HI.
    change (view (h, @SetKeyedMap.empty KT _ _ V).1
              (h, @SetKeyedMap.empty KT _ _ V).2)
      with (@nil (list KT * V)).
    unfold view_set_all, kept_by, view.
    generalize (@nil (list KT * V)).
    induction (SetKeyedMap.valueMap m) as [|[ck v] l IH]; intros acc;
      csimpl; [done|].
    destruct (p v (JSSet.contents h ck)).1; csimpl; by rewrite IH.
Qed.

Lemma mapOver_general {V T} h (m : SetKeyedMap.t KT V)
    (f : V → list KT → T * list KT) :
  Inv h m →
  Inv (SetKeyedMap.mapOver h m f).1 (SetKeyedMap.mapOver h m f).2 ∧
  (∃ ext, (SetKeyedMap.mapOver h m f).1 = h ++ ext) ∧
  (∀ dk, dk ∈ canonicalKeys (SetKeyedMap.mapOver h m f).2 →
     length h ≤ dk) ∧
  view (SetKeyedMap.mapOver h m f).1 (SetKeyedMap.mapOver h m f).2
  = view_set_all [] (transformed_by f (view h m)).
Proof.
  intros HI.
  destruct (derive_loop (λ v s, (Some (f v s).1, (f v s).2))
              (SetKeyedMap.mapOver_step f) h) with
    (todo := SetKeyedMap.valueMap m) (st := (h, @SetKeyedMap.empty KT _ _ T))
    as (H1 & H2 & H3 & H4).
  - intros [h1 d] [ck v]. unfold SetKeyedMap.mapOver_step. simpl.
    unfold SetKeyedMap.createUserFacingKey, JSSet.alloc.
    by destruct (f v _) as [t s].
  - apply HI.
  - apply HI.
  - apply Inv_empty, HI.
  - exists []. simpl. by rewrite app_nil_r.
  - unfold canonicalKeys. simpl. by intros dk ?%elem_of_nil.
  - unfold SetKeyedMap.mapOver. split_and!; [done..|].
    rewrite H4. clear H1 H2 H3 H4 HI.
    change (view (h, @SetKeyedMap.empty KT _ _ T).1
              (h, @SetKeyedMap.empty KT _ _ T).2)
      with (@nil (list KT * T)).
    unfold view_set_all, transformed_by, view.
    generalize (@nil (list KT * T)).
    induction (SetKeyedMap.valueMap m) as [|[ck v] l IH]; intros acc;
      csimpl; [done|].
    by rewrite IH.
Qed.

(** [find], entry by entry. *)
Lemma find_entries_spec {V} (p : V → list KT → bool * list KT) h
    (l : list (ref * V)) ext :
  Forall NoDup h → (∀ k, k ∈ l.*1 → k < length h) →
  ∃ ext',
    (SetKeyedMap.find_entries p (h ++ ext) l).1 = h ++ ext ++ ext' ∧
    Forall NoDup ext' ∧
    match (SetKeyedMap.find_entries p (h ++ ext) l).2 with
    | Some (key, v) =>
        ∃ i ck,
          l !! i = Some (ck, v) ∧ length (h ++ ext) ≤ key ∧
          key < length (SetKeyedMap.find_entries p (h ++ ext) l).1 ∧
          JSSet.contents (SetKeyedMap.find_entries p (h ++ ext) l).1 key
          = JSSet.from (p v (JSSet.contents h ck)).2 ∧
          (p v (JSSet.contents h ck)).1 = true ∧
          ∀ j kv, j < i → l !! j = Some kv →
                  (p kv.2 (JSSet.contents h kv.1)).1 = false
    | None => ∀ kv, kv ∈ l → (p kv.2 (JSSet.contents h kv.1)).1 = false
    end.
Proof.
  intros Hh. revert ext.
  induction l as [|[k v] l IH]; intros ext Hl.
  { exists []. simpl. rewrite app_nil_r. split_and!; [done..|].
    by intros kv ?%elem_of_nil. }
  simpl. unfold SetKeyedMap.createUserFacingKey, JSSet.alloc.
  rewrite copy_contents by (try apply Hl; try left; done).
  rewrite contents_alloc.
  destruct (p v (JSSet.contents h k)) as [found s] eqn:Hp.
  rewrite insert_last. destruct found.
  - exists [JSSet.from s]. simpl. rewrite (assoc_L (++) h).
    split_and!; [done|apply Forall_singleton, NoDup_from|].
    exists 0, k. rewrite Hp. simpl. split_and!; [done|lia| | |done|].
    + rewrite (length_app (h ++ ext)). simpl. lia.
    + apply contents_alloc.
    + intros j kv Hj. lia.
  - rewrite <- (assoc_L (++) h).
    destruct (IH (ext ++ [JSSet.from s])) as (ext' & Hheap & Hnd & Hres).
    { intros; apply Hl; by right. }
    exists (JSSet.from s :: ext'). rewrite Hheap. split_and!.
    + by rewrite <- (assoc_L (++) ext).
    + apply Forall_cons. split; [apply NoDup_from|done].
    + rewrite Hheap in Hres.
      destruct (SetKeyedMap.find_entries p _ l).2 as [[key v']|].
      * destruct Hres as (i & ck & Hi & Hge & Hlt & Hc & Hpv & Hbefore).
        exists (S i), ck. split_and!; [done| |done..|].
        -- rewrite (assoc_L (++) h), length_app in Hge. lia.
        -- intros [|j] kv Hj Hkv; simpl in Hkv.
           ++ injection Hkv as <-. simpl. by rewrite Hp.
           ++ apply (Hbefore j); [lia|done].
      * intros kv [->|Hin]%elem_of_cons; [simpl; by rewrite Hp|].
        by apply Hres.
Qed.

Lemma reduceRight_reduce {V T} h (m : SetKeyedMap.t KT V)
    (f : T → V → list KT → T) i :
  SetKeyedMap.reduceRight h m f i = SetKeyedMap.reduce h m f i.
Proof. reflexivity. Qed.

(** Every reachable state satisfies the invariants. *)
Lemma reachable_Inv {V} h (m : SetKeyedMap.t KT V) :
  reachable V h m → Inv h m.
Proof.
  induction 1 as [V|V h m l _ IH|V h m k e _ IH [Hk Hnc]
                 |V h m k e _ IH [Hk Hnc]|V h m k _ IH [Hk Hnc]
                 |V h m k v _ IH _
                 |V h m k _ IH _|V h m _ IH|V h m _ IH|V h m _ IH
                 |V S h m f s _ IH
                 |V h m f _ IH|V h m f _ IH|V h m f _ IH
                 |V T h m f _ IH|V T h m f _ IH
                 |V T h m f i _ IH|V T h m f i _ IH|V h m f _ IH
                 |V T h m f _ IH].
  - by apply Inv_empty.
  - apply Inv_alloc; [done|apply NoDup_from].
  - apply Inv_mutate; [done..|]. apply NoDup_add, contents_NoDup, IH.
  - apply Inv_mutate; [done..|]. apply NoDup_remove, contents_NoDup, IH.
  - apply Inv_mutate; [done..|]. apply NoDup_nil_2.
  - by apply Inv_set.
  - by apply Inv_delete.
  - by apply Inv_clear.
  - rewrite keys_spec by done. by apply Inv_copies.
  - rewrite entries_spec by done. by apply Inv_copies.
  - by apply Inv_copy_loop.
  - unfold SetKeyedMap.every.
    pose proof (Inv_for_entries
                  (λ _ value s, if f value s then None else Some false)
                  h m IH) as HI.
    by destruct (SetKeyedMap.for_entries _ h _).
  - unfold SetKeyedMap.some.
    pose proof (Inv_for_entries
                  (λ _ value s, if f value s then Some true else None)
                  h m IH) as HI.
    by destruct (SetKeyedMap.for_entries _ h _).
  - unfold SetKeyedMap.find.
    destruct (find_entries_spec f h (SetKeyedMap.valueMap m) [])
      as (ext' & Hheap & Hnd & _); [apply IH..|].
    rewrite !app_nil_r in Hheap. rewrite Hheap. by apply Inv_app.
  - by apply Inv_copy_loop.
  - by apply Inv_copy_loop.
  - rewrite reduce_spec by done. by apply Inv_copies.
  - rewrite reduceRight_reduce, reduce_spec by done. by apply Inv_copies.
  - by apply filter_general.
  - by apply mapOver_general.
Qed.
End Derived.

(** * Frame properties of lookups *)

Section Frame.
Context {KT : Type} `{Countable KT}.
Implicit Types (h ext : list (list KT)) (key ck k : ref).

Lemma getCannonicalKey_frame {V} h1 h2 (m : SetKeyedMap.t KT V) k1 k2 :
  Inv h1 m → Inv h2 m →
  (∀ ck, ck ∈ canonicalKeys m →
     JSSet.contents h2 ck = JSSet.contents h1 ck) →
  k1 ∉ canonicalKeys m → k2 ∉ canonicalKeys m →
  JSSet.contents h2 k2 = JSSet.contents h1 k1 →
  SetKeyedMap.getCannonicalKey h2 m k2 = SetKeyedMap.getCannonicalKey h1 m k1.
Proof.
  intros HI1 HI2 Hsame Hk1 Hk2 Hc.
  assert (∀ ha hb ka kb,
            Inv ha m → Inv hb m →
            (∀ ck, ck ∈ canonicalKeys m →
               JSSet.contents hb ck = JSSet.contents ha ck) →
            ka ∉ canonicalKeys m →
            JSSet.contents hb kb = JSSet.contents ha ka →
            ∀ ck, SetKeyedMap.getCannonicalKey ha m ka = Some ck →
                  SetKeyedMap.getCannonicalKey hb m kb = Some ck) as Hdir.
  { intros ha hb ka kb HIa HIb Hab Hka Hcab ck Hg.
    destruct (getCannonicalKey_Some ha m ka ck HIa Hg) as (Hck & Heq & Hne).
    apply getCannonicalKey_equivalent; [done|done| |].
    - rewrite Hcab. by apply Hne.
    - unfold equivalent in *. by rewrite Hcab, Hab. }
  destruct (SetKeyedMap.getCannonicalKey h1 m k1) as [ck|] eqn:Hg1.
  - by apply (Hdir h1 h2 k1 k2).
  - destruct (SetKeyedMap.getCannonicalKey h2 m k2) as [ck|] eqn:Hg2;
      [|done].
    rewrite <- Hg1. symmetry. apply (Hdir h2 h1 k2 k1); try done.
    intros ck' Hck'. symmetry. by apply Hsame.
Qed.



Lemma untouched_trans {V} h1 h2 h3 (m : SetKeyedMap.t KT V) :
  length h1 ≤ length h2 →
  untouched h1 m h2 → untouched h2 m h3 → untouched h1 m h3.
Proof.
  intros Hlen [Hv1 Hg1] [Hv2 Hg2]. split; [by rewrite Hv2|].
  intros k Hk. destruct (Hg1 k Hk) as [<- <-]. apply Hg2. lia.
Qed.

(** [set] only ever appends to the heap. *)
Lemma set_heap {V} h (m : SetKeyedMap.t KT V) key v :
  Forall NoDup h →
  ∃ ext, (SetKeyedMap.set h m key v).1 = h ++ ext ∧ Forall NoDup ext.
Proof.
  intros Hh.
  destruct (SetKeyedMap.getCannonicalKey h m key) as [ck|] eqn:Hg.
  - rewrite (set_existing h m key ck v Hg). exists []. simpl.
    by rewrite app_nil_r.
  - rewrite (set_new h m key v Hh Hg). eexists. split; [done|].
    apply Forall_singleton. by apply contents_NoDup.
Qed.

(** An invariant-respecting container is found through equivalent keys. *)
Lemma Inv_equivalence_invariant {V} h (m : SetKeyedMap.t KT V) :
  Inv h m → equivalence_invariant h m.
Proof.
  intros HI s v k Hin Hne Heq.
  apply view_elem in Hin as (ck & Hin & <-).
  assert (ck ∈ canonicalKeys m) as Hck.
  { apply list_elem_of_fmap. by exists (ck, v). }
  assert (SetKeyedMap.getCannonicalKey h m k = Some ck) as Hg.
  { apply getCannonicalKey_equivalent; [done..| |by apply same_elements_sym].
    intros Hnil. rewrite Hnil in Heq.
    by apply same_elements_sym, same_elements_nil in Heq. }
  unfold SetKeyedMap.get, SetKeyedMap.has. rewrite Hg. split.
  - apply get_elem_NoDup; [apply HI|done].
  - by apply has_true.
Qed.
End Frame.

(** * Properties of [set], [get], [has] and [delete] *)

Section Lookup.
Context {KT : Type} `{Countable KT}.
Implicit Types (h ext : list (list KT)) (key ck k : ref).

Lemma reachable_fresh V (sets : list (list KT)) :
  reachable V (JSSet.from <$> sets) SetKeyedMap.empty.
Proof.
  induction sets as [|s sets IH] using rev_ind; [apply r_new|].
  rewrite fmap_app. simpl. by apply (r_new_Set V _ _ s) in IH.
Qed.

Lemma set_elem {V} (m : list (ref * V)) k v : (k, v) ∈ JSMap.set m k v.
Proof.
  induction m as [|[k' v'] m IH]; simpl; [left|].
  case_decide; [subst; left|by right].
Qed.

Lemma set_length_old {V} (m : list (ref * V)) k v :
  k ∈ m.*1 → length (JSMap.set m k v) = length m.
Proof.
  intros Hk. rewrite <- (length_fmap fst), set_keys_old by done.
  by rewrite length_fmap.
Qed.

(** After [set] the value sits under a stored key with the candidate's
    elements. *)
Lemma set_stores {V} h (m : SetKeyedMap.t KT V) key v :
  Inv h m →
  ∃ ck, (ck, v) ∈ SetKeyedMap.valueMap (SetKeyedMap.set h m key v).2 ∧
        same_elements (JSSet.contents (SetKeyedMap.set h m key v).1 ck)
          (JSSet.contents h key).
Proof.
  intros HI.
  destruct (SetKeyedMap.getCannonicalKey h m key) as [ck|] eqn:Hg.
  - rewrite (set_existing h m key ck v Hg). simpl. exists ck.
    split; [apply set_elem|].
    by destruct (getCannonicalKey_Some h m key ck HI Hg) as (_ & ? & _).
  - rewrite (set_new h m key v (inv_heap h m HI) Hg). simpl.
    exists (length h). split; [apply set_elem|].
    rewrite contents_alloc. apply same_elements_refl.
Qed.

(** The stored keys after [set]: the old ones, and possibly a new copy of
    the candidate. *)
Lemma set_canonicalKeys {V} h (m : SetKeyedMap.t KT V) key v ck :
  Inv h m → ck ∈ canonicalKeys (SetKeyedMap.set h m key v).2 →
  (ck ∈ canonicalKeys m ∧
   JSSet.contents (SetKeyedMap.set h m key v).1 ck = JSSet.contents h ck) ∨
  (ck = length h ∧
   JSSet.contents (SetKeyedMap.set h m key v).1 ck = JSSet.contents h key).
Proof.
  intros HI.
  destruct (SetKeyedMap.getCannonicalKey h m key) as [ck'|] eqn:Hg.
  - rewrite (set_existing h m key ck' v Hg). unfold canonicalKeys. simpl.
    destruct (getCannonicalKey_Some h m key ck' HI Hg) as (Hck' & _).
    rewrite set_keys_old by done. by left.
  - rewrite (set_new h m key v (inv_heap h m HI) Hg).
    unfold canonicalKeys. simpl.
    rewrite set_keys_new by (intros Hin%(inv_live h m HI); lia).
    intros [Hck| ->%list_elem_of_singleton]%elem_of_app.
    + left. split; [done|]. apply contents_app_l. by apply (inv_live h m HI).
    + right. split; [done|]. apply contents_alloc.
Qed.

Lemma contents_live h k : JSSet.contents h k ≠ [] → k < length h.
Proof.
  intros Hne. destruct (decide (k < length h)); [done|].
  rewrite contents_dead in Hne by lia. done.
Qed.

Lemma set_contents {V} h (m : SetKeyedMap.t KT V) key v k :
  Inv h m → k < length h →
  JSSet.contents (SetKeyedMap.set h m key v).1 k = JSSet.contents h k.
Proof.
  intros HI Hk.
  destruct (set_heap h m key v (inv_heap h m HI)) as (ext & -> & _).
  by apply contents_app_l.
Qed.

(** C1 (amended).  Equivalence-invariance for keys that have at least one
    element: in every reachable state, after [set(K1, v)] a lookup through
    any key [K2] with the same elements as [K1] (in any order, any object)
    gives [get(K2) = v] and [has(K2) = true]. *)
Theorem set_then_get_equivalent {V} h (m : SetKeyedMap.t KT V) k1 k2 v :
  reachable V h m →
  JSSet.contents h k1 ≠ [] →
  equivalent h k1 k2 →
  SetKeyedMap.get (SetKeyedMap.set h m k1 v).1
    (SetKeyedMap.set h m k1 v).2 k2 = Some v ∧
  SetKeyedMap.has (SetKeyedMap.set h m k1 v).1
    (SetKeyedMap.set h m k1 v).2 k2 = true.
Proof.
  intros HI%reachable_Inv Hne Heq.
  pose proof (Inv_set h m k1 v HI) as HI'.
  destruct (set_stores h m k1 v HI) as (ck & Hin & Hck).
  assert (JSSet.contents h k2 ≠ []) as Hne2.
  { intros Hnil. unfold equivalent in Heq. rewrite Hnil in Heq.
    by apply same_elements_nil in Heq. }
  assert (JSSet.contents (SetKeyedMap.set h m k1 v).1 ck ≠ []) as Hnec.
  { intros Hnil. rewrite Hnil in Hck.
    by apply same_elements_sym, same_elements_nil in Hck. }
  apply (Inv_equivalence_invariant _ _ HI'
           (JSSet.contents (SetKeyedMap.set h m k1 v).1 ck)); [|done|].
  - unfold view. apply list_elem_of_In, in_map_iff.
    exists (ck, v). split; [done|by apply list_elem_of_In].
  - rewrite set_contents by (done || by apply contents_live).
    eapply same_elements_trans; [by apply same_elements_sym|].
    by apply same_elements_sym.
Qed.

(** C2.  Cardinality discrimination: in every reachable state, if the
    elements of [K1] are a strict subset of those of [K2] (or the other
    way round) and no stored key has the elements of [K2], then after
    [set(K1, v1)] the lookup of [K2] finds nothing. *)
Theorem set_then_get_strict_subset {V} h (m : SetKeyedMap.t KT V) k1 k2 v1 :
  reachable V h m →
  k2 < length h →
  strict_subset (JSSet.contents h k1) (JSSet.contents h k2) ∨
  strict_subset (JSSet.contents h k2) (JSSet.contents h k1) →
  (∀ ck, ck ∈ canonicalKeys m → ¬ equivalent h ck k2) →
  SetKeyedMap.get (SetKeyedMap.set h m k1 v1).1
    (SetKeyedMap.set h m k1 v1).2 k2 = None ∧
  SetKeyedMap.has (SetKeyedMap.set h m k1 v1).1
    (SetKeyedMap.set h m k1 v1).2 k2 = false.
Proof.
  intros HI%reachable_Inv Hk2 Hstrict Hno.
  pose proof (Inv_set h m k1 v1 HI) as HI'.
  assert (¬ equivalent h k1 k2) as Hneq.
  { intros Heq. destruct Hstrict as [[_ (e & He & Hne)]|[_ (e & He & Hne)]];
      apply Hne, Heq, He. }
  assert (SetKeyedMap.getCannonicalKey (SetKeyedMap.set h m k1 v1).1
            (SetKeyedMap.set h m k1 v1).2 k2 = None) as Hg.
  { destruct (SetKeyedMap.getCannonicalKey _ _ k2) as [ck|] eqn:Hg; [|done].
    exfalso.
    destruct (getCannonicalKey_Some _ _ _ _ HI' Hg) as (Hck & Heq & _).
    unfold equivalent in Heq. rewrite (set_contents h m k1 v1 k2) in Heq
      by done.
    destruct (set_canonicalKeys h m k1 v1 ck HI Hck)
      as [[Hold Hc]|[_ Hc]]; rewrite Hc in Heq.
    - by apply (Hno ck).
    - by apply Hneq. }
  unfold SetKeyedMap.get, SetKeyedMap.has. by rewrite Hg.
Qed.

(** C4 (amended).  Canonical-key uniqueness among keys that have at least
    one element: in every reachable state the stored keys are pairwise
    distinct objects, and two stored keys with the same elements, one of
    which is not empty, are the same key. *)
Theorem canonical_key_unique {V} h (m : SetKeyedMap.t KT V) k1 k2 :
  reachable V h m →
  k1 ∈ canonicalKeys m → k2 ∈ canonicalKeys m →
  JSSet.contents h k1 ≠ [] → equivalent h k1 k2 →
  k1 = k2 ∧ NoDup (canonicalKeys m).
Proof.
  intros HI%reachable_Inv H1 H2 Hne Heq. split; [|apply HI].
  by apply (inv_unique h m HI).
Qed.

(** C5.  Index consistency: in every reachable state, a stored key [K] is
    in the row of element [e] exactly when [e] is an element of [K]; every
    key in a row is a stored key; and no row is empty. *)
Theorem index_consistent {V} h (m : SetKeyedMap.t KT V) :
  reachable V h m →
  (∀ k e, k ∈ canonicalKeys m →
     (∃ row, SetKeyedMap.subkeyToKeys m !! e = Some row ∧ k ∈ row) ↔
     e ∈ JSSet.contents h k) ∧
  (∀ e row k, SetKeyedMap.subkeyToKeys m !! e = Some row → k ∈ row →
     k ∈ canonicalKeys m) ∧
  (∀ e, SetKeyedMap.subkeyToKeys m !! e ≠ Some []).
Proof.
  intros HI%reachable_Inv. split_and!.
  - intros k e Hk. split.
    + intros (row & Hrow & Hin). by eapply inv_row_sound.
    + by apply inv_row_complete.
  - intros e row k Hrow Hin. by eapply inv_row_sound.
  - apply HI.
Qed.

(** C6.  A key without elements, held by a caller, is never found: in
    every reachable state [get] gives undefined, [has] gives false and
    [delete] gives false and changes nothing. *)
Theorem empty_key_not_found {V} h (m : SetKeyedMap.t KT V) k :
  reachable V h m →
  caller_holds h m k →
  JSSet.contents h k = [] →
  SetKeyedMap.get h m k = None ∧
  SetKeyedMap.has h m k = false ∧
  SetKeyedMap.delete h m k = (m, false).
Proof.
  intros _ [_ Hk] Hnil.
  pose proof (getCannonicalKey_empty h m k Hk Hnil) as Hg.
  unfold SetKeyedMap.get, SetKeyedMap.has, SetKeyedMap.delete.
  by rewrite Hg.
Qed.
End Lookup.

(** * Repeated [set], empty keys, iteration and derived containers *)

Section Claims.
Context {KT : Type} `{Countable KT}.
Implicit Types (h ext : list (list KT)) (key ck k : ref).

Lemma last_cons_default {A} (a d : A) (l : list A) :
  default d (last (a :: l)) = default a (last l).
Proof.
  destruct l as [|b l]; [done|].
  change (last (a :: b :: l)) with (last (b :: l)).
  destruct (last (b :: l)) eqn:Hlast; [done|].
  by apply last_None in Hlast.
Qed.

Lemma set_all_existing {V} h (m : SetKeyedMap.t KT V) ck kvs v0 :
  Inv h m → ck ∈ canonicalKeys m → JSSet.contents h ck ≠ [] →
  JSMap.get (SetKeyedMap.valueMap m) ck = Some v0 →
  Forall (λ kv : ref * V, equivalent h ck kv.1) kvs →
  (set_all h m kvs).1 = h ∧
  canonicalKeys (set_all h m kvs).2 = canonicalKeys m ∧
  Inv h (set_all h m kvs).2 ∧
  JSMap.get (SetKeyedMap.valueMap (set_all h m kvs).2) ck
    = Some (default v0 (last kvs.*2)).
Proof.
  intros HI Hck Hne Hget Hall. revert m v0 HI Hck Hget.
  induction Hall as [|[k v] kvs Hk Hall IH]; intros m v0 HI Hck Hget;
    [done|].
  simpl in Hk. unfold set_all in *. simpl.
  assert (SetKeyedMap.getCannonicalKey h m k = Some ck) as Hg.
  { apply getCannonicalKey_equivalent; [done..| |done].
    intros Hnil. unfold equivalent in Hk. rewrite Hnil in Hk.
    by apply same_elements_nil in Hk. }
  pose proof (Inv_set h m k v HI) as HI'.
  rewrite (set_existing h m k ck v Hg) in *. simpl in HI'.
  destruct (IH (SetKeyedMap.Build
                  (JSMap.set (SetKeyedMap.valueMap m) ck v)
                  (SetKeyedMap.subkeyToKeys m)) v)
    as (H1 & H2 & H3 & H4); [done| | |].
  - unfold canonicalKeys. simpl. by rewrite set_keys_old.
  - simpl. apply get_set_eq.
  - split_and!; [done| |done|].
    + rewrite H2. unfold canonicalKeys. simpl. by rewrite set_keys_old.
    + rewrite H4. f_equal. symmetry.
      apply (last_cons_default v v0 kvs.*2).
Qed.

(** C3 (amended).  Upsert idempotence for keys that have at least one
    element: in every reachable state, after [set(K, v)] any run of
    further [set] calls with keys equivalent to [K] leaves [size] where
    the first call put it (at most one more than before), and [get]
    through an equivalent key returns the value of the most recent
    call. *)
Theorem set_repeated_equivalent {V} h (m : SetKeyedMap.t KT V) k v kvs k' :
  reachable V h m →
  JSSet.contents h k ≠ [] →
  Forall (λ kv : ref * V, equivalent h k kv.1) kvs →
  equivalent h k k' →
  SetKeyedMap.size
    (set_all (SetKeyedMap.set h m k v).1 (SetKeyedMap.set h m k v).2 kvs).2
    = SetKeyedMap.size (SetKeyedMap.set h m k v).2 ∧
  SetKeyedMap.size (SetKeyedMap.set h m k v).2 ≤ S (SetKeyedMap.size m) ∧
  SetKeyedMap.get
    (set_all (SetKeyedMap.set h m k v).1 (SetKeyedMap.set h m k v).2 kvs).1
    (set_all (SetKeyedMap.set h m k v).1 (SetKeyedMap.set h m k v).2 kvs).2
    k' = Some (default v (last kvs.*2)).
Proof.
  intros HI%reachable_Inv Hne Hall Heq.
  pose proof (Inv_set h m k v HI) as HI1.
  destruct (set_stores h m k v HI) as (ck & Hin & Hck).
  assert (∀ k0, equivalent h k k0 →
            equivalent (SetKeyedMap.set h m k v).1 ck k0) as Hequiv.
  { intros k0 Hk0. unfold equivalent.
    assert (JSSet.contents h k0 ≠ []) as Hne0.
    { intros Hnil. unfold equivalent in Hk0. rewrite Hnil in Hk0.
      by apply same_elements_nil in Hk0. }
    rewrite (set_contents h m k v k0) by (done || by apply contents_live).
    by eapply same_elements_trans. }
  assert (ck ∈ canonicalKeys (SetKeyedMap.set h m k v).2) as Hckin.
  { apply list_elem_of_fmap. by exists (ck, v). }
  destruct (set_all_existing (SetKeyedMap.set h m k v).1
              (SetKeyedMap.set h m k v).2 ck kvs v HI1 Hckin)
    as (H1 & H2 & H3 & H4).
  - intros Hnil. rewrite Hnil in Hck.
    by apply same_elements_sym, same_elements_nil in Hck.
  - apply get_elem_NoDup; [apply HI1|done].
  - eapply Forall_impl; [done|]. intros kv Hkv. by apply Hequiv.
  - split_and!.
    + unfold SetKeyedMap.size. rewrite <- !(length_fmap fst).
      unfold canonicalKeys in H2. by rewrite H2.
    + unfold SetKeyedMap.size, SetKeyedMap.set.
      destruct (SetKeyedMap.getCannonicalKey h m k) as [ck0|] eqn:Hg; simpl.
      * destruct (getCannonicalKey_Some h m k ck0 HI Hg) as (? & _).
        rewrite set_length_old by done. lia.
      * rewrite set_new_entry, length_app; [simpl; lia|].
        intros Hlt%(inv_live h m HI). lia.
    + rewrite H1 in *. unfold SetKeyedMap.get.
      rewrite (getCannonicalKey_equivalent _ _ k' ck H3); [done| | |].
      * by rewrite H2.
      * assert (JSSet.contents h k' ≠ []) as Hne0.
        { intros Hnil. unfold equivalent in Heq. rewrite Hnil in Heq.
          by apply same_elements_nil in Heq. }
        by rewrite (set_contents h m k v k')
          by (done || by apply contents_live).
      * by apply Hequiv.
Qed.

(** C9.  [set] with a caller's key that has no elements always appends a
    new entry, so [size] grows by exactly one, whatever is stored; no
    empty key of a caller finds or deletes it, a [delete] through any key
    of a caller leaves it in place, and [clear] removes it. *)
Theorem set_empty_key_inserts {V} h (m : SetKeyedMap.t KT V) k v :
  reachable V h m →
  caller_holds h m k →
  JSSet.contents h k = [] →
  SetKeyedMap.size (SetKeyedMap.set h m k v).2 = S (SetKeyedMap.size m) ∧
  SetKeyedMap.valueMap (SetKeyedMap.set h m k v).2
    = SetKeyedMap.valueMap m ++ [(length h, v)] ∧
  JSSet.contents (SetKeyedMap.set h m k v).1 (length h) = [] ∧
  (∀ k', caller_holds (SetKeyedMap.set h m k v).1
           (SetKeyedMap.set h m k v).2 k' →
     JSSet.contents (SetKeyedMap.set h m k v).1 k' = [] →
     SetKeyedMap.get (SetKeyedMap.set h m k v).1
       (SetKeyedMap.set h m k v).2 k' = None ∧
     SetKeyedMap.has (SetKeyedMap.set h m k v).1
       (SetKeyedMap.set h m k v).2 k' = false ∧
     SetKeyedMap.delete (SetKeyedMap.set h m k v).1
       (SetKeyedMap.set h m k v).2 k'
       = ((SetKeyedMap.set h m k v).2, false)) ∧
  (∀ k', caller_holds (SetKeyedMap.set h m k v).1
           (SetKeyedMap.set h m k v).2 k' →
     (length h, v) ∈
       SetKeyedMap.valueMap
         (SetKeyedMap.delete (SetKeyedMap.set h m k v).1
            (SetKeyedMap.set h m k v).2 k').1) ∧
  SetKeyedMap.size (SetKeyedMap.clear (SetKeyedMap.set h m k v).2) = 0.
Proof.
  intros HI%reachable_Inv [Hlive Hk] Hnil.
  pose proof (Inv_set h m k v HI) as HI'.
  pose proof (getCannonicalKey_empty h m k Hk Hnil) as Hg.
  rewrite (set_new h m k v (inv_heap h m HI) Hg) in *. simpl in *.
  assert (length h ∉ (SetKeyedMap.valueMap m).*1) as Hfresh.
  { intros Hin%(inv_live h m HI). lia. }
  rewrite set_new_entry in * by done. rewrite Hnil in *.
  split_and!.
  - unfold SetKeyedMap.size. simpl. rewrite length_app. simpl. lia.
  - done.
  - apply contents_alloc.
  - intros k' [_ Hk'] Hnil'.
    pose proof (getCannonicalKey_empty _ _ k' Hk' Hnil') as Hg'.
    unfold SetKeyedMap.get, SetKeyedMap.has, SetKeyedMap.delete.
    by rewrite Hg'.
  - intros k' [_ Hk']. unfold SetKeyedMap.delete.
    match goal with
    | |- context [SetKeyedMap.getCannonicalKey ?a ?b ?c] =>
        destruct (SetKeyedMap.getCannonicalKey a b c) as [ck|] eqn:Hg'
    end; simpl.
    + destruct (getCannonicalKey_Some _ _ _ _ HI' Hg') as (_ & Heq & Hne).
      apply list_elem_of_filter. split; [|apply elem_of_app; right; left].
      simpl. intros <-. apply (Hne Hk'). unfold equivalent in Heq.
      rewrite contents_alloc in Heq.
      by apply same_elements_sym, same_elements_nil in Heq.
    + apply elem_of_app. right. left.
  - done.
Qed.

(** C10.  [reduceRight] is [reduce]: both fold the entries front to
    back, in iteration order. *)
Theorem reduceRight_is_reduce {V T} h (m : SetKeyedMap.t KT V)
    (f : T → V → list KT → T) i :
  reachable V h m →
  SetKeyedMap.reduceRight h m f i = SetKeyedMap.reduce h m f i ∧
  (SetKeyedMap.reduceRight h m f i).2
    = foldl (λ a (sv : list KT * V), f a sv.2 sv.1) i (view h m).
Proof.
  intros HI%reachable_Inv. split; [apply reduceRight_reduce|].
  by rewrite reduceRight_reduce, reduce_spec.
Qed.

(** A key object that the container does not store can be overwritten
    without the container noticing. *)
Lemma caller_key_mutation_safe {V} h (m : SetKeyedMap.t KT V) key :
  Inv h m → key ∉ canonicalKeys m → mutation_safe h m key.
Proof.
  intros HI Hkey s Hs.
  pose proof (Inv_mutate h m key s HI Hkey Hs) as HI'.
  assert (∀ ck, ck ∈ canonicalKeys m →
            JSSet.contents (<[key := s]> h) ck = JSSet.contents h ck)
    as Hsame.
  { intros ck Hck. apply contents_insert_ne. by intros ->. }
  split_and!; [done|by apply view_heap|].
  intros k1 k2 [_ Hk1] [_ Hk2] Hc.
  pose proof (getCannonicalKey_frame h (<[key := s]> h) m k1 k2
                HI HI' Hsame Hk1 Hk2 Hc) as Hg.
  unfold SetKeyedMap.get, SetKeyedMap.has. by rewrite Hg.
Qed.

Lemma copy_is_caller_key {V} h (m : SetKeyedMap.t KT V) i :
  Inv h m → i < SetKeyedMap.size m →
  ∃ ck v,
    SetKeyedMap.valueMap m !! i = Some (ck, v) ∧
    JSSet.contents (h ++ List.map (JSSet.contents h) (canonicalKeys m))
      (length h + i)
    = JSSet.contents (h ++ List.map (JSSet.contents h) (canonicalKeys m))
        ck ∧
    caller_holds (h ++ List.map (JSSet.contents h) (canonicalKeys m)) m
      (length h + i).
Proof.
  intros HI Hi. unfold SetKeyedMap.size in Hi.
  destruct (lookup_lt_is_Some_2 _ _ Hi) as [[ck v] Hkv].
  assert (ck ∈ canonicalKeys m) as Hck.
  { apply list_elem_of_fmap. exists (ck, v). split; [done|].
    by eapply list_elem_of_lookup_2. }
  pose proof (inv_live h m HI ck Hck) as Hlive.
  exists ck, v. split_and!; [done| |].
  - rewrite (contents_app_l h _ ck) by done.
    unfold JSSet.contents at 1. rewrite lookup_app_r by lia.
    replace (length h + i - length h) with i by lia.
    unfold canonicalKeys.
    change (List.map ?g ?l) with (g <$> l).
    by rewrite !list_lookup_fmap, Hkv.
  - split.
    + rewrite length_app, length_map. unfold canonicalKeys.
      rewrite length_fmap. lia.
    + intros Hin%(inv_live h m HI). lia.
Qed.

(** C8.  Iteration yields fresh copies: in every reachable state, the
    i-th key produced by [keys()] or [entries()] has the elements of the
    i-th stored key (and comes with its value) but is an object the
    container does not store, so overwriting it afterwards leaves the
    container's invariants, its entries and every lookup unchanged. *)
Theorem iteration_yields_copies {V} h (m : SetKeyedMap.t KT V) :
  reachable V h m →
  length (SetKeyedMap.keys h m).2 = SetKeyedMap.size m ∧
  length (SetKeyedMap.entries h m).2 = SetKeyedMap.size m ∧
  (∀ i key, (SetKeyedMap.keys h m).2 !! i = Some key →
     (∃ ck, canonicalKeys m !! i = Some ck ∧
            JSSet.contents (SetKeyedMap.keys h m).1 key
            = JSSet.contents (SetKeyedMap.keys h m).1 ck) ∧
     caller_holds (SetKeyedMap.keys h m).1 m key ∧
     mutation_safe (SetKeyedMap.keys h m).1 m key) ∧
  (∀ i key v, (SetKeyedMap.entries h m).2 !! i = Some (key, v) →
     (∃ ck, SetKeyedMap.valueMap m !! i = Some (ck, v) ∧
            JSSet.contents (SetKeyedMap.entries h m).1 key
            = JSSet.contents (SetKeyedMap.entries h m).1 ck) ∧
     caller_holds (SetKeyedMap.entries h m).1 m key ∧
     mutation_safe (SetKeyedMap.entries h m).1 m key).
Proof.
  intros HI%reachable_Inv.
  rewrite keys_spec, entries_spec by done. simpl.
  pose proof (Inv_copies h m (canonicalKeys m) HI) as HI'.
  assert (length (SetKeyedMap.values m) = SetKeyedMap.size m) as Hlen.
  { unfold SetKeyedMap.values, SetKeyedMap.size. by rewrite length_fmap. }
  split_and!.
  - by rewrite length_seq.
  - rewrite length_zip, length_seq. lia.
  - intros i key [-> Hi]%lookup_seq.
    destruct (copy_is_caller_key h m i HI Hi) as (ck & v & Hkv & Hc & Hcaller).
    split_and!; [|done|apply caller_key_mutation_safe; [done|apply Hcaller]].
    exists ck. split; [|done]. unfold canonicalKeys.
    by rewrite list_lookup_fmap, Hkv.
  - intros i key v Hz.
    apply lookup_zip_with_Some in Hz as (key' & v' & [= <- <-] & Hs & Hv).
    apply lookup_seq in Hs as [-> Hi].
    destruct (copy_is_caller_key h m i HI Hi)
      as (ck & v0 & Hkv & Hc & Hcaller).
    assert (v0 = v) as ->.
    { unfold SetKeyedMap.values in Hv. rewrite list_lookup_fmap, Hkv in Hv.
      by injection Hv. }
    split_and!; [|done|apply caller_key_mutation_safe; [done|apply Hcaller]].
    by exists ck.
Qed.



End Claims.

(** * The properties on concrete runs *)

Section Concrete.
Import Examples.

Lemma same_elements_Forall (s1 s2 : list nat) :
  Forall (λ e, e ∈ s2) s1 → Forall (λ e, e ∈ s1) s2 → same_elements s1 s2.
Proof.
  intros H1 H2 e. split; intros He.
  - by apply (proj1 (Forall_forall _ _) H1).
  - by apply (proj1 (Forall_forall _ _) H2).
Qed.

Lemma reachable_ab_ba : reachable nat ab_ba new.
Proof. apply (reachable_fresh nat [[1; 2]; [2; 1]]). Qed.

Lemma reachable_a_ab : reachable nat a_ab new.
Proof. apply (reachable_fresh nat [[1]; [1; 2]]). Qed.

Lemma reachable_two_empty : reachable nat two_empty new.
Proof. apply (reachable_fresh nat [[]; []]). Qed.

Lemma reachable_empty_once : reachable nat empty_once.1 empty_once.2.
Proof. apply r_set; [apply reachable_two_empty|split; by_computation]. Qed.

Lemma reachable_empty_twice : reachable nat empty_twice.1 empty_twice.2.
Proof. apply r_set; [apply reachable_empty_once|split; by_computation]. Qed.

Lemma reachable_churn3 : reachable nat churn3.1 churn3.2.
Proof.
  apply r_set; [|split; by_computation].
  apply r_set; [|split; by_computation].
  apply r_set; [|split; by_computation].
  apply (reachable_fresh nat [[1; 2]; [3]; [4; 5]; [2; 1]]).
Qed.

Lemma reachable_churn4 : reachable nat churn3.1 churn4.1.
Proof. apply r_delete; [apply reachable_churn3|split; by_computation]. Qed.

Lemma reachable_nan2 :
  reachable (option nat) MoreExamples.nan2.1 MoreExamples.nan2.2.
Proof.
  apply r_set; [|split; by_computation].
  apply r_set; [|split; by_computation].
  apply (reachable_fresh (option nat) [[1; 2]; [3]]).
Qed.

Lemma set_then_get_equivalent_witness :
  SetKeyedMap.get (SetKeyedMap.set ab_ba new 0 42).1
    (SetKeyedMap.set ab_ba new 0 42).2 1 = Some 42 ∧
  SetKeyedMap.has (SetKeyedMap.set ab_ba new 0 42).1
    (SetKeyedMap.set ab_ba new 0 42).2 1 = true.
Proof.
  apply (set_then_get_equivalent ab_ba new 0 1 42 reachable_ab_ba).
  - by_computation.
  - apply same_elements_Forall; by_computation.
Defined.

(** C1 as stated fails for keys without elements: after
    [set(new Set(), 42)] on a new container, a second empty set is not
    found. *)
Lemma set_then_get_empty_key_counterexample :
  reachable nat two_empty new ∧
  equivalent two_empty 0 1 ∧
  SetKeyedMap.get (SetKeyedMap.set two_empty new 0 42).1
    (SetKeyedMap.set two_empty new 0 42).2 1 = None ∧
  SetKeyedMap.has (SetKeyedMap.set two_empty new 0 42).1
    (SetKeyedMap.set two_empty new 0 42).2 1 = false.
Proof.
  split_and!; [apply reachable_two_empty| |by vm_compute..].
  apply same_elements_Forall; by_computation.
Qed.

Lemma set_then_get_strict_subset_witness :
  SetKeyedMap.get (SetKeyedMap.set a_ab new 0 7).1
    (SetKeyedMap.set a_ab new 0 7).2 1 = None ∧
  SetKeyedMap.has (SetKeyedMap.set a_ab new 0 7).1
    (SetKeyedMap.set a_ab new 0 7).2 1 = false.
Proof.
  apply (set_then_get_strict_subset a_ab new 0 1 7 reachable_a_ab).
  - by_computation.
  - left. split.
    + apply Forall_forall. by_computation.
    + exists 2. split; by_computation.
  - intros ck Hck. by apply elem_of_nil in Hck.
Defined.

Lemma set_repeated_equivalent_witness :
  SetKeyedMap.size
    (set_all (SetKeyedMap.set ab_ba new 0 1).1
       (SetKeyedMap.set ab_ba new 0 1).2 [(1, 2); (0, 3)]).2
    = SetKeyedMap.size (SetKeyedMap.set ab_ba new 0 1).2 ∧
  SetKeyedMap.size (SetKeyedMap.set ab_ba new 0 1).2
    ≤ S (SetKeyedMap.size new) ∧
  SetKeyedMap.get
    (set_all (SetKeyedMap.set ab_ba new 0 1).1
       (SetKeyedMap.set ab_ba new 0 1).2 [(1, 2); (0, 3)]).1
    (set_all (SetKeyedMap.set ab_ba new 0 1).1
       (SetKeyedMap.set ab_ba new 0 1).2 [(1, 2); (0, 3)]).2
    1 = Some 3.
Proof.
  apply (set_repeated_equivalent ab_ba new 0 1 [(1, 2); (0, 3)] 1
           reachable_ab_ba).
  - by_computation.
  - repeat apply Forall_cons_2; [..|apply Forall_nil_2];
      apply same_elements_Forall; by_computation.
  - apply same_elements_Forall; by_computation.
Defined.

(** C3 as stated fails for the empty key: a second [set] with the same
    empty set grows the container from one entry to two, and the value is
    not found. *)
Lemma set_repeated_empty_key_counterexample :
  reachable nat two_empty new ∧
  equivalent two_empty 0 0 ∧
  SetKeyedMap.size (SetKeyedMap.set two_empty new 0 1).2 = 1 ∧
  SetKeyedMap.size
    (set_all (SetKeyedMap.set two_empty new 0 1).1
       (SetKeyedMap.set two_empty new 0 1).2 [(0, 2)]).2 = 2 ∧
  SetKeyedMap.get
    (set_all (SetKeyedMap.set two_empty new 0 1).1
       (SetKeyedMap.set two_empty new 0 1).2 [(0, 2)]).1
    (set_all (SetKeyedMap.set two_empty new 0 1).1
       (SetKeyedMap.set two_empty new 0 1).2 [(0, 2)]).2
    0 = None.
Proof.
  split_and!; [apply reachable_two_empty| |by vm_compute..].
  apply same_elements_refl.
Qed.

Lemma canonical_key_unique_witness :
  4 = 4 ∧ NoDup (canonicalKeys churn3.2).
Proof.
  apply (canonical_key_unique churn3.1 churn3.2 4 4 reachable_churn3).
  - by_computation.
  - by_computation.
  - by_computation.
  - apply same_elements_refl.
Defined.

(** C4 as stated fails once empty keys are inserted: two [set] calls with
    empty sets leave two stored keys, objects 2 and 3, with the same (no)
    elements. *)
Lemma canonical_key_empty_counterexample :
  reachable nat empty_twice.1 empty_twice.2 ∧
  2 ∈ canonicalKeys empty_twice.2 ∧
  3 ∈ canonicalKeys empty_twice.2 ∧
  equivalent empty_twice.1 2 3 ∧
  2 ≠ 3.
Proof.
  split_and!; [apply reachable_empty_twice|by_computation..| |done].
  apply same_elements_Forall; by_computation.
Qed.

Lemma index_consistent_witness :
  (∀ k e, k ∈ canonicalKeys churn4.1 →
     (∃ row, SetKeyedMap.subkeyToKeys churn4.1 !! e = Some row ∧ k ∈ row) ↔
     e ∈ JSSet.contents churn3.1 k) ∧
  (∀ e row k, SetKeyedMap.subkeyToKeys churn4.1 !! e = Some row → k ∈ row →
     k ∈ canonicalKeys churn4.1) ∧
  (∀ e, SetKeyedMap.subkeyToKeys churn4.1 !! e ≠ Some []).
Proof. exact (index_consistent churn3.1 churn4.1 reachable_churn4). Defined.

Lemma empty_key_not_found_witness :
  SetKeyedMap.get empty_once.1 empty_once.2 1 = None ∧
  SetKeyedMap.has empty_once.1 empty_once.2 1 = false ∧
  SetKeyedMap.delete empty_once.1 empty_once.2 1 = (empty_once.2, false).
Proof.
  apply (empty_key_not_found empty_once.1 empty_once.2 1
           reachable_empty_once).
  - split; by_computation.
  - by vm_compute.
Defined.

Lemma set_empty_key_inserts_witness :
  SetKeyedMap.size (SetKeyedMap.set empty_once.1 empty_once.2 1 2).2
    = S (SetKeyedMap.size empty_once.2) ∧
  SetKeyedMap.valueMap (SetKeyedMap.set empty_once.1 empty_once.2 1 2).2
    = SetKeyedMap.valueMap empty_once.2 ++ [(3, 2)] ∧
  (3, 2) ∈ SetKeyedMap.valueMap
             (SetKeyedMap.delete
                (SetKeyedMap.set empty_once.1 empty_once.2 1 2).1
                (SetKeyedMap.set empty_once.1 empty_once.2 1 2).2 0).1 ∧
  SetKeyedMap.size
    (SetKeyedMap.clear (SetKeyedMap.set empty_once.1 empty_once.2 1 2).2)
    = 0.
Proof.
  destruct (set_empty_key_inserts empty_once.1 empty_once.2 1 2
              reachable_empty_once)
    as (Hsize & Hmap & _ & _ & Hdelete & Hclear).
  - split; by_computation.
  - by vm_compute.
  - split_and!; [exact Hsize|exact Hmap| |exact Hclear].
    apply (Hdelete 0). split; by_computation.
Defined.

Lemma reduceRight_is_reduce_witness :
  SetKeyedMap.reduceRight churn3.1 churn3.2 snoc_value []
    = SetKeyedMap.reduce churn3.1 churn3.2 snoc_value [] ∧
  (SetKeyedMap.reduceRight churn3.1 churn3.2 snoc_value []).2
    = [10; 20; 30].
Proof.
  exact (reduceRight_is_reduce churn3.1 churn3.2 snoc_value []
           reachable_churn3).
Defined.

Lemma iteration_yields_copies_witness :
  length (SetKeyedMap.keys churn3.1 churn3.2).2 = 3 ∧
  length (SetKeyedMap.entries churn3.1 churn3.2).2 = 3 ∧
  JSSet.contents (SetKeyedMap.keys churn3.1 churn3.2).1 7 = [1; 2] ∧
  caller_holds (SetKeyedMap.keys churn3.1 churn3.2).1 churn3.2 7 ∧
  mutation_safe (SetKeyedMap.keys churn3.1 churn3.2).1 churn3.2 7 ∧
  mutation_safe (SetKeyedMap.entries churn3.1 churn3.2).1 churn3.2 8.
Proof.
  destruct (iteration_yields_copies churn3.1 churn3.2 reachable_churn3)
    as (Hk & He & Hkeys & Hentries).
  destruct (Hkeys 0 7 eq_refl) as ((ck & Hck & Hc) & Hcaller & Hsafe).
  destruct (Hentries 1 8 20 eq_refl) as (_ & _ & Hsafe').
  split_and!; [exact Hk|exact He|by vm_compute|done..].
Defined.



(** The same [set] made on the source is seen in the source: isolation
    separates the two containers, it does not hold of every call. *)
Lemma set_on_source_is_seen :
  view
    (w_heap
       (on_source
          (World
             (SetKeyedMap.filter churn3.1 churn3.2 (pure_callback over_ten)).1
             churn3.2
             (SetKeyedMap.filter churn3.1 churn3.2 (pure_callback over_ten)).2)
          (op_set 0 99)))
    (w_source
       (on_source
          (World
             (SetKeyedMap.filter churn3.1 churn3.2 (pure_callback over_ten)).1
             churn3.2
             (SetKeyedMap.filter churn3.1 churn3.2 (pure_callback over_ten)).2)
          (op_set 0 99)))
  = [([1; 2], 99); ([3], 20); ([4; 5], 30)] ∧
  view churn3.1 churn3.2 = [([1; 2], 10); ([3], 20); ([4; 5], 30)].
Proof. split; by vm_compute. Qed.
End Concrete.

(** * Lookups and removal, as seen by a caller *)

Section MoreLookup.
Context {KT : Type} `{Countable KT}.
Implicit Types (h ext : list (list KT)) (key ck k : ref).

Lemma has_true_resolved {V} h (m : SetKeyedMap.t KT V) k :
  Inv h m → SetKeyedMap.has h m k = true →
  ∃ ck, SetKeyedMap.getCannonicalKey h m k = Some ck ∧
        ck ∈ canonicalKeys m ∧ equivalent h ck k.
Proof.
  intros HI. unfold SetKeyedMap.has.
  destruct (SetKeyedMap.getCannonicalKey h m k) as [ck|] eqn:Hg; [|done].
  intros _. exists ck.
  by destruct (getCannonicalKey_Some h m k ck HI Hg) as (? & ? & _).
Qed.

Lemma has_false_unresolved {V} h (m : SetKeyedMap.t KT V) k :
  Inv h m → SetKeyedMap.has h m k = false →
  SetKeyedMap.getCannonicalKey h m k = None.
Proof.
  intros HI. unfold SetKeyedMap.has.
  destruct (SetKeyedMap.getCannonicalKey h m k) as [ck|] eqn:Hg; [|done].
  destruct (getCannonicalKey_Some h m k ck HI Hg) as (Hck & _).
  intros Hf. apply has_false in Hf. done.
Qed.

Lemma getCannonicalKey_no_equivalent {V} h (m : SetKeyedMap.t KT V) k :
  Inv h m → (∀ ck, ck ∈ canonicalKeys m → ¬ equivalent h ck k) →
  SetKeyedMap.getCannonicalKey h m k = None.
Proof.
  intros HI Hno.
  destruct (SetKeyedMap.getCannonicalKey h m k) as [ck|] eqn:Hg; [|done].
  destruct (getCannonicalKey_Some h m k ck HI Hg) as (Hck & Heq & _).
  by destruct (Hno ck).
Qed.

Lemma equivalent_nonempty h k1 k2 :
  JSSet.contents h k1 ≠ [] → equivalent h k1 k2 → JSSet.contents h k2 ≠ [].
Proof.
  intros Hne Heq Hnil. unfold equivalent in Heq. rewrite Hnil in Heq.
  by apply same_elements_nil in Heq.
Qed.

Lemma get_delete_ne {V} (m : list (ref * V)) k k' :
  k ≠ k' → JSMap.get (JSMap.delete m k) k' = JSMap.get m k'.
Proof.
  intros Hne. unfold JSMap.delete.
  induction m as [|[k0 v0] m IH]; [done|].
  rewrite filter_cons. simpl.
  destruct (decide (k0 ≠ k)) as [Hk0|Hk0]; simpl.
  - by rewrite IH.
  - rewrite decide_False; [done|]. intros ->. apply Hk0. by intros ->.
Qed.

Lemma filter_all {A} (P : A → Prop) `{∀ x, Decision (P x)} (l : list A) :
  (∀ x, x ∈ l → P x) → filter P l = l.
Proof.
  induction l as [|a l IH]; intros Hl; [done|].
  rewrite filter_cons, decide_True by (apply Hl; left).
  f_equal. apply IH. intros x Hx. apply Hl. by right.
Qed.

Lemma delete_set_new {V} (m : list (ref * V)) k v :
  k ∉ m.*1 → JSMap.delete (JSMap.set m k v) k = m.
Proof.
  intros Hk. rewrite set_new_entry by done. unfold JSMap.delete.
  rewrite filter_app, filter_cons, decide_False, filter_nil, app_nil_r
    by (simpl; tauto).
  apply filter_all. intros [k' v'] Hin. simpl. intros ->.
  apply Hk. apply list_elem_of_fmap. by exists (k, v').
Qed.

(** Registering a key that no row holds and unregistering it again gives
    back the index. *)
Lemma unregister_register ck (idx : gmap KT (list ref)) subkeys :
  NoDup subkeys →
  (∀ e row, idx !! e = Some row → row ≠ [] ∧ ck ∉ row) →
  SetKeyedMap.unregister ck (SetKeyedMap.register ck idx subkeys) subkeys
  = idx.
Proof.
  intros Hnd Hrows. apply map_eq. intros e.
  rewrite unregister_lookup, register_lookup by done.
  case_decide; [|done].
  destruct (idx !! e) as [row|] eqn:Hrow; simpl.
  - destruct (Hrows e row Hrow) as [Hne Hck].
    rewrite filter_app, filter_cons, decide_False, filter_nil, app_nil_r
      by tauto.
    rewrite filter_all by (by intros x Hx ->).
    by destruct row.
  - by rewrite filter_cons, decide_False, filter_nil by tauto.
Qed.


(** X2.  A key that no stored key is equivalent to is reported missing and
    removing it is a no-op: [get] gives undefined, [has] gives false and
    [delete] returns false with the container unchanged. *)
Theorem missing_key_not_found {V} h (m : SetKeyedMap.t KT V) k :
  reachable V h m →
  (∀ ck, ck ∈ canonicalKeys m → ¬ equivalent h ck k) →
  SetKeyedMap.get h m k = None ∧
  SetKeyedMap.has h m k = false ∧
  SetKeyedMap.delete h m k = (m, false).
Proof.
  intros HI%reachable_Inv Hno.
  pose proof (getCannonicalKey_no_equivalent h m k HI Hno) as Hg.
  unfold SetKeyedMap.get, SetKeyedMap.has, SetKeyedMap.delete.
  by rewrite Hg.
Qed.

(** X1.  Removing a present key: when [has(K)] is true for a caller's key,
    [delete(K)] returns true, [size] drops by exactly one, every key
    equivalent to [K] is gone afterwards, and a second [delete] through
    such a key returns false and changes nothing. *)
Theorem delete_present {V} h (m : SetKeyedMap.t KT V) k k' :
  reachable V h m →
  caller_holds h m k →
  SetKeyedMap.has h m k = true →
  equivalent h k k' →
  (SetKeyedMap.delete h m k).2 = true ∧
  S (SetKeyedMap.size (SetKeyedMap.delete h m k).1) = SetKeyedMap.size m ∧
  SetKeyedMap.has h (SetKeyedMap.delete h m k).1 k' = false ∧
  SetKeyedMap.get h (SetKeyedMap.delete h m k).1 k' = None ∧
  SetKeyedMap.delete h (SetKeyedMap.delete h m k).1 k'
  = ((SetKeyedMap.delete h m k).1, false).
Proof.
  intros HI%reachable_Inv [_ Hk] Hhas Heq.
  pose proof (Inv_delete h m k HI) as HI'.
  destruct (has_true_resolved h m k HI Hhas) as (ck & Hg & Hck & Hckk).
  destruct (getCannonicalKey_Some h m k ck HI Hg) as (_ & _ & Hne).
  specialize (Hne Hk).
  rewrite (delete_found h m k ck Hg) in *. simpl in *.
  assert (SetKeyedMap.getCannonicalKey h
            (SetKeyedMap.Build (JSMap.delete (SetKeyedMap.valueMap m) ck)
               (SetKeyedMap.unregister ck (SetKeyedMap.subkeyToKeys m)
                  (JSSet.contents h ck))) k' = None) as Hgone.
  { apply getCannonicalKey_no_equivalent; [done|].
    unfold canonicalKeys. simpl. rewrite delete_keys.
    intros ck' [Hneq Hck']%list_elem_of_filter Heq'.
    apply Hneq. symmetry. apply (inv_unique h m HI); [done..| |].
    - apply (equivalent_nonempty h k); [done|by apply same_elements_sym].
    - eapply same_elements_trans; [done|].
      eapply same_elements_trans; [done|]. by apply same_elements_sym. }
  split_and!.
  - done.
  - unfold SetKeyedMap.size. simpl. apply delete_length; [apply HI|done].
  - unfold SetKeyedMap.has. by rewrite Hgone.
  - unfold SetKeyedMap.get. by rewrite Hgone.
  - by apply delete_missing.
Qed.

(** X3.  Insert-then-remove round trip: when no stored key is equivalent
    to the non-empty key [K], [set(K, v)] followed by [delete(K')] for any
    [K'] equivalent to [K] returns true and gives back the container as it
    was, value map and index alike. *)
Theorem set_then_delete_restores {V} h (m : SetKeyedMap.t KT V) k k' v :
  reachable V h m →
  JSSet.contents h k ≠ [] →
  (∀ ck, ck ∈ canonicalKeys m → ¬ equivalent h ck k) →
  equivalent h k k' →
  SetKeyedMap.delete (SetKeyedMap.set h m k v).1 (SetKeyedMap.set h m k v).2 k'
  = (m, true).
Proof.
  intros HI%reachable_Inv Hne Hno Heq.
  pose proof (Inv_set h m k v HI) as HI'.
  pose proof (getCannonicalKey_no_equivalent h m k HI Hno) as Hg.
  rewrite (set_new h m k v (inv_heap h m HI) Hg) in *. simpl in *.
  assert (length h ∉ (SetKeyedMap.valueMap m).*1) as Hfresh.
  { intros Hin%(inv_live h m HI). lia. }
  pose proof (equivalent_nonempty h k k' Hne Heq) as Hne'.
  pose proof (contents_alloc h (JSSet.contents h k)) as Hnew.
  erewrite delete_found; cycle 1.
  { apply (getCannonicalKey_equivalent _ _ k' (length h) HI').
    - unfold canonicalKeys. simpl. rewrite set_keys_new by done.
      apply elem_of_app. right. left.
    - by rewrite contents_app_l by by apply contents_live.
    - unfold equivalent.
      by rewrite Hnew, contents_app_l by by apply contents_live. }
  simpl. rewrite Hnew, delete_set_new by done.
  rewrite unregister_register.
  - by destruct m.
  - apply contents_NoDup, HI.
  - intros e row Hrow. split.
    + intros ->. by apply (inv_row_nonempty h m HI e).
    + intros Hin. destruct (inv_row_sound h m HI e row _ Hrow Hin) as [Hc _].
      done.
Qed.
End MoreLookup.

(** * What [set], [delete] and [clear] leave alone *)

Section MoreFrames.
Context {KT : Type} `{Countable KT}.
Implicit Types (h ext : list (list KT)) (key ck k : ref).

(** A lookup gives the same answer in two states that agree on the stored
    keys equivalent to the candidate. *)
Lemma lookup_transfer {V} h h' (m m' : SetKeyedMap.t KT V) k :
  Inv h m → Inv h' m' →
  JSSet.contents h' k = JSSet.contents h k →
  (∀ ck, ck ∈ canonicalKeys m → equivalent h ck k →
     ck ∈ canonicalKeys m' ∧
     JSSet.contents h' ck = JSSet.contents h ck ∧
     JSMap.get (SetKeyedMap.valueMap m') ck
     = JSMap.get (SetKeyedMap.valueMap m) ck) →
  (∀ ck, ck ∈ canonicalKeys m' → equivalent h' ck k →
     ck ∈ canonicalKeys m ∧ JSSet.contents h' ck = JSSet.contents h ck) →
  SetKeyedMap.get h' m' k = SetKeyedMap.get h m k ∧
  SetKeyedMap.has h' m' k = SetKeyedMap.has h m k.
Proof.
  intros HI HI' Hc HA HB.
  destruct (decide (k ∈ canonicalKeys m)) as [Hk|Hk].
  - destruct (HA k Hk (same_elements_refl _)) as (Hk' & _ & Hget).
    unfold SetKeyedMap.get, SetKeyedMap.has.
    rewrite !getCannonicalKey_fast by done. split; [done|].
    by rewrite (proj2 (has_true _ _) Hk), (proj2 (has_true _ _) Hk').
  - assert (k ∉ canonicalKeys m') as Hk'.
    { intros Hin. by destruct (HB k Hin (same_elements_refl _)). }
    unfold SetKeyedMap.get, SetKeyedMap.has.
    destruct (SetKeyedMap.getCannonicalKey h m k) as [ck|] eqn:Hg.
    + destruct (getCannonicalKey_Some h m k ck HI Hg) as (Hck & Heq & Hne).
      destruct (HA ck Hck Heq) as (Hck' & Hcc & Hget).
      rewrite (getCannonicalKey_equivalent h' m' k ck HI' Hck').
      * split; [done|].
        by rewrite (proj2 (has_true _ _) Hck), (proj2 (has_true _ _) Hck').
      * rewrite Hc. by apply Hne.
      * unfold equivalent. by rewrite Hc, Hcc.
    + destruct (SetKeyedMap.getCannonicalKey h' m' k) as [ck|] eqn:Hg';
        [exfalso|done].
      destruct (getCannonicalKey_Some h' m' k ck HI' Hg')
        as (Hck' & Heq & Hne).
      destruct (HB ck Hck' Heq) as (Hck & Hcc).
      rewrite (getCannonicalKey_equivalent h m k ck HI Hck) in Hg; [done| |].
      * rewrite <- Hc. by apply Hne.
      * unfold equivalent in *. by rewrite <- Hc, <- Hcc.
Qed.

(** X5.  [set] touches one equivalence class only: for a live key [K2] that
    is not equivalent to [K1], [get(K2)] and [has(K2)] answer after
    [set(K1, v)] what they answered before. *)
Theorem set_other_key_unchanged {V} h (m : SetKeyedMap.t KT V) k1 k2 v :
  reachable V h m →
  k2 < length h →
  ¬ equivalent h k1 k2 →
  SetKeyedMap.get (SetKeyedMap.set h m k1 v).1 (SetKeyedMap.set h m k1 v).2 k2
  = SetKeyedMap.get h m k2 ∧
  SetKeyedMap.has (SetKeyedMap.set h m k1 v).1 (SetKeyedMap.set h m k1 v).2 k2
  = SetKeyedMap.has h m k2.
Proof.
  intros HI%reachable_Inv Hk2 Hneq.
  pose proof (Inv_set h m k1 v HI) as HI'.
  pose proof (set_contents h m k1 v k2 HI Hk2) as Hc2.
  apply lookup_transfer; [done..| |].
  - intros ck Hck Heq.
    pose proof (set_contents h m k1 v ck HI (inv_live h m HI ck Hck)) as Hcc.
    destruct (SetKeyedMap.getCannonicalKey h m k1) as [c|] eqn:Hg.
    + rewrite (set_existing h m k1 c v Hg) in *. simpl in *.
      destruct (getCannonicalKey_Some h m k1 c HI Hg) as (Hc & Hceq & _).
      split_and!; [|done|].
      * unfold canonicalKeys. simpl. by rewrite set_keys_old.
      * apply get_set_ne. intros ->. apply Hneq.
        eapply same_elements_trans; [by apply same_elements_sym|done].
    + rewrite (set_new h m k1 v (inv_heap h m HI) Hg) in *. simpl in *.
      assert (length h ≠ ck) as Hfresh.
      { pose proof (inv_live h m HI ck Hck). lia. }
      split_and!; [|done|by apply get_set_ne].
      unfold canonicalKeys in *. simpl. rewrite set_keys_new.
      * apply elem_of_app. by left.
      * intros Hin%(inv_live h m HI). lia.
  - intros ck Hck Heq. unfold equivalent in Heq. rewrite Hc2 in Heq.
    destruct (set_canonicalKeys h m k1 v ck HI Hck) as [[Hold Hc]|[_ Hc]];
      rewrite Hc in Heq; [done|].
    by destruct Hneq.
Qed.

(** X6.  [delete] touches one equivalence class only: for a key [K2] that
    is not equivalent to [K1], [get(K2)] and [has(K2)] answer after
    [delete(K1)] what they answered before. *)
Theorem delete_other_key_unchanged {V} h (m : SetKeyedMap.t KT V) k1 k2 :
  reachable V h m →
  ¬ equivalent h k1 k2 →
  SetKeyedMap.get h (SetKeyedMap.delete h m k1).1 k2 = SetKeyedMap.get h m k2 ∧
  SetKeyedMap.has h (SetKeyedMap.delete h m k1).1 k2 = SetKeyedMap.has h m k2.
Proof.
  intros HI%reachable_Inv Hneq.
  pose proof (Inv_delete h m k1 HI) as HI'.
  destruct (SetKeyedMap.getCannonicalKey h m k1) as [c|] eqn:Hg;
    [|by rewrite (delete_missing h m k1 Hg)].
  rewrite (delete_found h m k1 c Hg) in *. simpl in *.
  destruct (getCannonicalKey_Some h m k1 c HI Hg) as (Hc & Hceq & _).
  apply lookup_transfer; [done..| |].
  - intros ck Hck Heq.
    assert (c ≠ ck) as Hne.
    { intros ->. apply Hneq.
      eapply same_elements_trans; [by apply same_elements_sym|done]. }
    split_and!; [|done|by apply get_delete_ne].
    unfold canonicalKeys. simpl. rewrite delete_keys.
    apply list_elem_of_filter. split; [by intros ->|done].
  - intros ck Hck _. split; [|done].
    unfold canonicalKeys in Hck. simpl in Hck. rewrite delete_keys in Hck.
    by apply list_elem_of_filter in Hck as [_ ?].
Qed.

(** X7.  Updating a present key happens in place: when [has(K)] is true,
    [set(K, v)] allocates nothing and leaves the stored keys (and so the
    iteration order), the index and [size] as they were. *)
Theorem set_present_in_place {V} h (m : SetKeyedMap.t KT V) k v :
  reachable V h m →
  SetKeyedMap.has h m k = true →
  (SetKeyedMap.set h m k v).1 = h ∧
  canonicalKeys (SetKeyedMap.set h m k v).2 = canonicalKeys m ∧
  SetKeyedMap.subkeyToKeys (SetKeyedMap.set h m k v).2
  = SetKeyedMap.subkeyToKeys m ∧
  SetKeyedMap.size (SetKeyedMap.set h m k v).2 = SetKeyedMap.size m.
Proof.
  intros HI%reachable_Inv Hhas.
  destruct (has_true_resolved h m k HI Hhas) as (ck & Hg & Hck & _).
  rewrite (set_existing h m k ck v Hg). simpl.
  split_and!; [done| |done|].
  - unfold canonicalKeys. simpl. by rewrite set_keys_old.
  - unfold SetKeyedMap.size. simpl. by apply set_length_old.
Qed.

(** X8.  Inserting an absent key appends: when [has(K)] is false,
    [set(K, v)] allocates one object, a copy of [K], and the entries
    afterwards are the old ones, in order, followed by [(K's elements, v)];
    [size] grows by one. *)
Theorem set_absent_appends {V} h (m : SetKeyedMap.t KT V) k v :
  reachable V h m →
  SetKeyedMap.has h m k = false →
  (SetKeyedMap.set h m k v).1 = h ++ [JSSet.contents h k] ∧
  view (SetKeyedMap.set h m k v).1 (SetKeyedMap.set h m k v).2
  = view h m ++ [(JSSet.contents h k, v)] ∧
  SetKeyedMap.size (SetKeyedMap.set h m k v).2 = S (SetKeyedMap.size m).
Proof.
  intros HI%reachable_Inv Hhas.
  pose proof (has_false_unresolved h m k HI Hhas) as Hg.
  rewrite (set_new h m k v (inv_heap h m HI) Hg). simpl.
  assert (length h ∉ (SetKeyedMap.valueMap m).*1) as Hfresh.
  { intros Hin%(inv_live h m HI). lia. }
  rewrite set_new_entry by done.
  split_and!; [done| |].
  - unfold view. simpl. rewrite map_app. simpl. rewrite contents_alloc.
    f_equal. apply map_ext_in. intros [ck v'] Hin%list_elem_of_In. simpl.
    f_equal. apply contents_app_l. apply (inv_live h m HI).
    apply list_elem_of_fmap. by exists (ck, v').
  - unfold SetKeyedMap.size. simpl. rewrite length_app. simpl. lia.
Qed.

(** X9.  [set] stores a copy, never the object it is given: the key passed
    to [set] is still the caller's afterwards, and overwriting it leaves
    the container's invariants, entries and lookups unchanged. *)
Theorem set_stores_a_copy {V} h (m : SetKeyedMap.t KT V) k v :
  reachable V h m →
  caller_holds h m k →
  caller_holds (SetKeyedMap.set h m k v).1 (SetKeyedMap.set h m k v).2 k ∧
  mutation_safe (SetKeyedMap.set h m k v).1 (SetKeyedMap.set h m k v).2 k.
Proof.
  intros HI%reachable_Inv [Hlive Hk].
  pose proof (Inv_set h m k v HI) as HI'.
  assert (k ∉ canonicalKeys (SetKeyedMap.set h m k v).2) as Hk'.
  { intros Hin.
    destruct (set_canonicalKeys h m k v k HI Hin) as [[? _]|[? _]];
      [done|lia]. }
  split; [|by apply caller_key_mutation_safe].
  split; [|done].
  destruct (set_heap h m k v (inv_heap h m HI)) as (ext & -> & _).
  rewrite length_app. lia.
Qed.

(** X10.  [clear] (and [[Symbol.dispose]], which calls it) forgets
    everything: afterwards [size] is 0, iteration yields nothing, and for
    every key [get] gives undefined, [has] gives false and [delete] returns
    false. *)
Theorem clear_forgets_everything {V} h (m : SetKeyedMap.t KT V) k :
  reachable V h m →
  SetKeyedMap.size (SetKeyedMap.clear m) = 0 ∧
  SetKeyedMap.dispose m = SetKeyedMap.clear m ∧
  SetKeyedMap.entries h (SetKeyedMap.clear m) = (h, []) ∧
  SetKeyedMap.get h (SetKeyedMap.clear m) k = None ∧
  SetKeyedMap.has h (SetKeyedMap.clear m) k = false ∧
  SetKeyedMap.delete h (SetKeyedMap.clear m) k = (SetKeyedMap.clear m, false).
Proof.
  intros HI%reachable_Inv%Inv_clear.
  assert (SetKeyedMap.getCannonicalKey h (SetKeyedMap.clear m) k = None)
    as Hg.
  { apply getCannonicalKey_no_equivalent; [done|].
    by intros ck ?%elem_of_nil. }
  unfold SetKeyedMap.get, SetKeyedMap.has, SetKeyedMap.delete.
  by rewrite Hg.
Qed.
End MoreFrames.

(** * The array-like methods *)

Section MoreIteration.
Context {KT : Type} `{Countable KT}.
Implicit Types (h ext pre post : list (list KT)) (key ck k : ref).

(** The result of a loop whose body does not look at the key object. *)
Lemma for_entries_result {V R} (body : ref → V → list KT → option R)
    (g : V → list KT → option R) h (l : list (ref * V)) ext :
  (∀ key v s, body key v s = g v s) →
  Forall NoDup h → (∀ k, k ∈ l.*1 → k < length h) →
  (SetKeyedMap.for_entries body (h ++ ext) l).2
  = head (omap (λ kv : ref * V, g kv.2 (JSSet.contents h kv.1)) l).
Proof.
  intros Hbody Hh. revert ext.
  induction l as [|[k v] l IH]; intros ext Hl; [done|].
  simpl. unfold SetKeyedMap.createUserFacingKey, JSSet.alloc.
  rewrite copy_contents by (try apply Hl; try left; done).
  rewrite contents_alloc, Hbody. csimpl.
  destruct (g v (JSSet.contents h k)) as [r|] eqn:Hg.
  - done.
  - rewrite <- (assoc_L (++) h). apply IH. intros; apply Hl; by right.
Qed.

Lemma for_entries_result_view {V R} (body : ref → V → list KT → option R)
    (g : V → list KT → option R) h (m : SetKeyedMap.t KT V) :
  (∀ key v s, body key v s = g v s) → Inv h m →
  (SetKeyedMap.for_entries body h (SetKeyedMap.valueMap m)).2
  = head (omap (λ sv : list KT * V, g sv.2 sv.1) (view h m)).
Proof.
  intros Hbody HI.
  pose proof (for_entries_result body g h (SetKeyedMap.valueMap m) []
                Hbody (inv_heap h m HI) (inv_live h m HI)) as Hr.
  rewrite app_nil_r in Hr. rewrite Hr. f_equal. unfold view. clear Hr.
  induction (SetKeyedMap.valueMap m) as [|[k v] l IH]; csimpl; [done|].
  by rewrite IH.
Qed.

Lemma map_loop {V T} (f : V → list KT → T) h (l : list (ref * V)) ext acc :
  Forall NoDup h → (∀ k, k ∈ l.*1 → k < length h) →
  (foldl (SetKeyedMap.map_step f) (h ++ ext, acc) l).2
  = acc ++ List.map (λ kv : ref * V, f kv.2 (JSSet.contents h kv.1)) l.
Proof.
  intros Hh. revert ext acc.
  induction l as [|[k v] l IH]; intros ext acc Hl; simpl.
  - by rewrite app_nil_r.
  - unfold SetKeyedMap.map_step at 2. simpl.
    unfold SetKeyedMap.createUserFacingKey, JSSet.alloc.
    rewrite copy_contents by (try apply Hl; try left; done).
    rewrite contents_alloc, <- (assoc_L (++) h).
    rewrite IH by (intros; apply Hl; by right).
    by rewrite <- (assoc_L (++)).
Qed.

Lemma flatMap_loop {V T} (f : V → list KT → list T) h (l : list (ref * V))
    ext acc :
  Forall NoDup h → (∀ k, k ∈ l.*1 → k < length h) →
  (foldl (SetKeyedMap.flatMap_step f) (h ++ ext, acc) l).2
  = acc ++ concat (List.map (λ kv : ref * V,
                               f kv.2 (JSSet.contents h kv.1)) l).
Proof.
  intros Hh. revert ext acc.
  induction l as [|[k v] l IH]; intros ext acc Hl; simpl.
  - by rewrite app_nil_r.
  - unfold SetKeyedMap.flatMap_step at 2. simpl.
    unfold SetKeyedMap.createUserFacingKey, JSSet.alloc.
    rewrite copy_contents by (try apply Hl; try left; done).
    rewrite contents_alloc, <- (assoc_L (++) h).
    rewrite IH by (intros; apply Hl; by right).
    by rewrite <- (assoc_L (++)).
Qed.

Lemma copies_view {V} h (l : list (ref * V)) pre post :
  List.map
    (λ kv : ref * V,
       (JSSet.contents (pre ++ List.map (JSSet.contents h) l.*1 ++ post) kv.1,
        kv.2))
    (zip (seq (length pre) (length l)) l.*2)
  = List.map (λ kv : ref * V, (JSSet.contents h kv.1, kv.2)) l.
Proof.
  revert pre. induction l as [|[k v] l IH]; intros pre; [done|].
  simpl. f_equal.
  - f_equal. unfold JSSet.contents. rewrite lookup_app_r by lia.
    by rewrite Nat.sub_diag.
  - specialize (IH (pre ++ [JSSet.contents h k])).
    rewrite length_app, <- (assoc_L (++)) in IH. simpl in IH.
    by rewrite Nat.add_1_r in IH.
Qed.

Lemma copies_contents h (l : list ref) pre post :
  List.map (JSSet.contents (pre ++ List.map (JSSet.contents h) l ++ post))
    (seq (length pre) (length l))
  = List.map (JSSet.contents h) l.
Proof.
  revert pre. induction l as [|k l IH]; intros pre; [done|].
  simpl. f_equal.
  - unfold JSSet.contents. rewrite lookup_app_r by lia.
    by rewrite Nat.sub_diag.
  - specialize (IH (pre ++ [JSSet.contents h k])).
    rewrite length_app, <- (assoc_L (++)) in IH. simpl in IH.
    by rewrite Nat.add_1_r in IH.
Qed.

(** X11.  Iteration yields the entries: [entries()] (and [[Symbol.iterator]],
    which returns it), run to its end with no other call in between,
    produces in insertion order one pair per stored entry, whose key has
    the stored key's elements and whose value is the stored value; its
    values are those of [values()]; [keys()], run to its end, produces
    the keys' elements in the same order.  The key objects of one run are
    pairwise distinct, and a run of [keys()] after a run of [entries()]
    produces none of the objects that [entries()] produced. *)
Theorem entries_yield_the_entries {V} h (m : SetKeyedMap.t KT V) :
  reachable V h m →
  List.map
    (λ kv : ref * V, (JSSet.contents (SetKeyedMap.entries h m).1 kv.1, kv.2))
    (SetKeyedMap.entries h m).2 = view h m ∧
  (SetKeyedMap.entries h m).2.*2 = SetKeyedMap.values m ∧
  NoDup (SetKeyedMap.entries h m).2.*1 ∧
  List.map (JSSet.contents (SetKeyedMap.keys h m).1) (SetKeyedMap.keys h m).2
  = (view h m).*1 ∧
  NoDup (SetKeyedMap.keys h m).2 ∧
  (∀ k, k ∈ (SetKeyedMap.entries h m).2.*1 →
        k ∉ (SetKeyedMap.keys (SetKeyedMap.entries h m).1 m).2) ∧
  SetKeyedMap.iterator h m = SetKeyedMap.entries h m.
Proof.
  intros HI%reachable_Inv.
  pose proof (Inv_copies h m (canonicalKeys m) HI) as HI'.
  rewrite entries_spec by done. simpl. rewrite !keys_spec by done. simpl.
  assert (length (seq (length h) (SetKeyedMap.size m))
          = length (SetKeyedMap.values m)) as Hlen.
  { unfold SetKeyedMap.values, SetKeyedMap.size.
    by rewrite length_seq, length_fmap. }
  assert ((zip (seq (length h) (SetKeyedMap.size m)) (SetKeyedMap.values m)).*1
          = seq (length h) (SetKeyedMap.size m)) as Hfst.
  { by apply fst_zip; rewrite Hlen. }
  split_and!.
  - pose proof (copies_view h (SetKeyedMap.valueMap m) h []) as Hv.
    rewrite app_nil_r in Hv. apply Hv.
  - by apply snd_zip; rewrite Hlen.
  - rewrite Hfst. apply NoDup_seq.
  - pose proof (copies_contents h (canonicalKeys m) h []) as Hv.
    rewrite app_nil_r in Hv. unfold canonicalKeys in Hv at 2.
    rewrite length_fmap in Hv. unfold SetKeyedMap.size. rewrite Hv.
    unfold view, canonicalKeys. by rewrite <- !list_fmap_compose.
  - apply NoDup_seq.
  - rewrite Hfst. intros k Hk%elem_of_seq Hk'%elem_of_seq.
    rewrite length_app, length_map in Hk'. unfold canonicalKeys in Hk'.
    rewrite length_fmap in Hk'. unfold SetKeyedMap.size in Hk. lia.
  - unfold SetKeyedMap.iterator. by rewrite entries_spec.
Qed.

(** X12.  [every] and [some] are the conjunction and the disjunction of the
    predicate over the entries, so [every] is true and [some] false on an
    empty container, and [every(p)] is the negation of [some(not p)]. *)
Theorem every_some_over_entries {V} h (m : SetKeyedMap.t KT V)
    (p : V → list KT → bool) :
  reachable V h m →
  (SetKeyedMap.every h m p).2
  = forallb (λ sv : list KT * V, p sv.2 sv.1) (view h m) ∧
  (SetKeyedMap.some h m p).2
  = existsb (λ sv : list KT * V, p sv.2 sv.1) (view h m) ∧
  (SetKeyedMap.every h m p).2
  = negb (SetKeyedMap.some h m (λ v s, negb (p v s))).2.
Proof.
  intros HI%reachable_Inv.
  assert (∀ q : V → list KT → bool,
            (SetKeyedMap.every h m q).2
            = forallb (λ sv : list KT * V, q sv.2 sv.1) (view h m)) as Hevery.
  { intros q. unfold SetKeyedMap.every.
    pose proof (for_entries_result_view
                  (λ _ value s, if q value s then None else Some false)
                  (λ value s, if q value s then None else Some false)
                  h m (λ _ _ _, eq_refl) HI) as Hr.
    destruct (SetKeyedMap.for_entries _ h _) as [h' r]. simpl in *.
    rewrite Hr. clear Hr.
    generalize (view h m). intros l.
    induction l as [|[s v] l IH]; csimpl; [done|].
    by destruct (q v s). }
  assert (∀ q : V → list KT → bool,
            (SetKeyedMap.some h m q).2
            = existsb (λ sv : list KT * V, q sv.2 sv.1) (view h m)) as Hsome.
  { intros q. unfold SetKeyedMap.some.
    pose proof (for_entries_result_view
                  (λ _ value s, if q value s then Some true else None)
                  (λ value s, if q value s then Some true else None)
                  h m (λ _ _ _, eq_refl) HI) as Hr.
    destruct (SetKeyedMap.for_entries _ h _) as [h' r]. simpl in *.
    rewrite Hr. clear Hr.
    generalize (view h m). intros l.
    induction l as [|[s v] l IH]; csimpl; [done|].
    by destruct (q v s). }
  split_and!; [apply Hevery|apply Hsome|].
  rewrite Hevery, Hsome.
  generalize (view h m). intros l.
    induction l as [|[s v] l IH]; simpl; [done|].
  rewrite IH. by destruct (p v s).
Qed.

(** X13.  [map] applies the callback to every entry in insertion order,
    [flatMap] is [map] followed by flattening, and [forEach] runs the
    callback over the entries in the same order. *)
Theorem map_flatMap_forEach_in_order {V T S} h (m : SetKeyedMap.t KT V)
    (f : V → list KT → T) (g : V → list KT → list T)
    (a : S → V → list KT → S) (s : S) :
  reachable V h m →
  (SetKeyedMap.map h m f).2
  = List.map (λ sv : list KT * V, f sv.2 sv.1) (view h m) ∧
  (SetKeyedMap.flatMap h m g).2 = concat (SetKeyedMap.map h m g).2 ∧
  (SetKeyedMap.forEach h m a s).2
  = foldl (λ acc (sv : list KT * V), a acc sv.2 sv.1) s (view h m).
Proof.
  intros HI%reachable_Inv.
  assert (∀ T' (f' : V → list KT → T'),
            (SetKeyedMap.map h m f').2
            = List.map (λ sv : list KT * V, f' sv.2 sv.1) (view h m)) as Hmap.
  { intros T' f'. unfold SetKeyedMap.map.
    pose proof (map_loop f' h (SetKeyedMap.valueMap m) [] []) as Hl.
    rewrite app_nil_r in Hl. rewrite Hl by apply HI. simpl.
    unfold view. by rewrite map_map. }
  split_and!; [apply Hmap| |].
  - rewrite Hmap. unfold SetKeyedMap.flatMap.
    pose proof (flatMap_loop g h (SetKeyedMap.valueMap m) [] []) as Hl.
    rewrite app_nil_r in Hl. rewrite Hl by apply HI. simpl.
    unfold view. by rewrite map_map.
  - change (SetKeyedMap.forEach h m a s) with (SetKeyedMap.reduce h m a s).
    by rewrite reduce_spec.
Qed.

(** X14.  [includes(v)] is true exactly when some entry holds a value that
    is strictly equal ([===]) to [v], and it agrees with [some] called
    with that test.  So for a value that [===] tells apart from every
    other and equates with itself, [includes(v)] is true exactly when some
    entry holds [v]; and for a value that is strictly equal to nothing (as
    [NaN]), [includes] is false even when an entry holds it. *)
Theorem includes_iff_value_stored {V} `{StrictEq V} h
    (m : SetKeyedMap.t KT V) (v : V) :
  reachable V h m →
  (SetKeyedMap.includes m v = true ↔
   ∃ k v', (k, v') ∈ SetKeyedMap.valueMap m ∧ strict_eq v' v = true) ∧
  SetKeyedMap.includes m v
  = (SetKeyedMap.some h m (λ v' _, strict_eq v' v)).2 ∧
  ((∀ v', strict_eq v' v = true ↔ v' = v) →
   (SetKeyedMap.includes m v = true ↔ ∃ k, (k, v) ∈ SetKeyedMap.valueMap m)) ∧
  ((∀ v', strict_eq v' v = false) → SetKeyedMap.includes m v = false).
Proof.
  intros HI%reachable_Inv.
  assert (SetKeyedMap.includes m v = true ↔
          ∃ k v', (k, v') ∈ SetKeyedMap.valueMap m ∧ strict_eq v' v = true)
    as Hiff.
  { unfold SetKeyedMap.includes, SetKeyedMap.values.
    rewrite existsb_exists. split.
    - intros (v' & Hin%list_elem_of_In & Heq).
      apply list_elem_of_fmap in Hin as ([k v''] & -> & Hin). by exists k, v''.
    - intros (k & v' & Hin & Heq). exists v'. split; [|done].
      apply list_elem_of_In, list_elem_of_fmap. by exists (k, v'). }
  split_and!.
  - done.
  - unfold SetKeyedMap.some.
    pose proof (for_entries_result_view
                  (λ _ value (s : list KT),
                     if strict_eq value v then Some true else None)
                  (λ value s,
                     if strict_eq value v then Some true else None)
                  h m (λ _ _ _, eq_refl) HI) as Hr.
    destruct (SetKeyedMap.for_entries _ h _) as [h' r]. simpl in *.
    rewrite Hr. clear Hr Hiff.
    unfold SetKeyedMap.includes, SetKeyedMap.values, view.
    induction (SetKeyedMap.valueMap m) as [|[k v'] l IH]; csimpl; [done|].
    rewrite IH. by destruct (strict_eq v' v).
  - intros Heq. rewrite Hiff. split.
    + intros (k & v' & Hin & ->%Heq). by exists k.
    + intros [k Hin]. exists k, v. split; [done|by apply Heq].
  - intros Hnan. apply not_true_iff_false. rewrite Hiff.
    intros (k & v' & _ & Heq). by rewrite Hnan in Heq.
Qed.
End MoreIteration.

(** * [find], derived containers and the candidate rows *)

Section MoreDerived.
Context {KT : Type} `{Countable KT}.
Implicit Types (h ext : list (list KT)) (key ck k : ref).

(** X15.  [find] returns the first entry, in insertion order, for which the
    predicate returns true, and undefined exactly when there is none.  The
    key it returns is the object that was handed to the predicate: an
    object the container does not store, holding the stored key's elements
    as the predicate left them (so the stored key's elements when the
    predicate leaves its key alone). *)
Theorem find_returns_first_match {V} h (m : SetKeyedMap.t KT V)
    (p : V → list KT → bool * list KT) :
  reachable V h m →
  (∀ key v, (SetKeyedMap.find h m p).2 = Some (key, v) →
     caller_holds (SetKeyedMap.find h m p).1 m key ∧
     ∃ i ck,
       SetKeyedMap.valueMap m !! i = Some (ck, v) ∧
       JSSet.contents (SetKeyedMap.find h m p).1 key
       = JSSet.from (p v (JSSet.contents h ck)).2 ∧
       (leaves_key p →
        JSSet.contents (SetKeyedMap.find h m p).1 key = JSSet.contents h ck) ∧
       (p v (JSSet.contents h ck)).1 = true ∧
       ∀ j kv, j < i → SetKeyedMap.valueMap m !! j = Some kv →
               (p kv.2 (JSSet.contents h kv.1)).1 = false) ∧
  ((SetKeyedMap.find h m p).2 = None ↔
   ∀ kv, kv ∈ SetKeyedMap.valueMap m →
         (p kv.2 (JSSet.contents h kv.1)).1 = false).
Proof.
  intros HI%reachable_Inv.
  destruct (find_entries_spec p h (SetKeyedMap.valueMap m) []
              (inv_heap h m HI) (inv_live h m HI)) as (ext & Hheap & _ & Hres).
  rewrite !app_nil_r in Hres, Hheap. unfold SetKeyedMap.find.
  destruct (SetKeyedMap.find_entries p h _) as [h' [[key v]|]]; simpl in *.
  - destruct Hres as (i & ck & Hi & Hge & Hlt & Hc & Hp & Hbefore).
    split.
    + intros key' v' [= <- <-]. split; [split; [done|]|].
      * intros Hin%(inv_live h m HI). lia.
      * exists i, ck. split_and!; [done..| |done|done].
        intros Hleave. rewrite Hc, Hleave. apply from_NoDup.
        apply contents_NoDup, HI.
    + split; [done|]. intros Hall.
      apply list_elem_of_lookup_2 in Hi. apply Hall in Hi. simpl in Hi.
      congruence.
  - split; [done|]. by split.
Qed.










Lemma insert_row_head a l :
  head (SetKeyedMap.insert_row a l)
  = match head l with
    | Some b => if decide (length a ≤ length b) then Some a else Some b
    | None => Some a
    end.
Proof. destruct l as [|b l]; simpl; [done|]. by case_decide. Qed.

(** X19.  The candidate rows are searched shortest first: sorting drops
    and adds no row, and the row that [getCannonicalKey] takes first is no
    longer than any other. *)
Theorem sort_rows_shortest_first (l : list (list ref)) :
  SetKeyedMap.sort_rows l ≡ₚ l ∧
  Forall
    (λ row, length (default [] (head (SetKeyedMap.sort_rows l))) ≤ length row)
    l ∧
  (SetKeyedMap.sort_rows l = [] ↔ l = []).
Proof.
  split_and!.
  - apply sort_rows_Permutation.
  - induction l as [|a l IH]; [done|]. simpl. rewrite insert_row_head.
    destruct (head (SetKeyedMap.sort_rows l)) as [b|] eqn:Hb; simpl in *.
    + case_decide; simpl.
      * apply Forall_cons. split; [done|].
        eapply Forall_impl; [done|]. intros row ?. simpl in *. lia.
      * apply Forall_cons. split; [lia|done].
    + apply Forall_cons. split; [done|].
      apply head_None in Hb.
      pose proof (sort_rows_Permutation l) as Hp. rewrite Hb in Hp.
      apply Permutation_nil_l in Hp. by subst.
  - split; [|by intros ->].
    intros Hnil. pose proof (sort_rows_Permutation l) as Hp.
    rewrite Hnil in Hp. by apply Permutation_nil_l in Hp.
Qed.
End MoreDerived.

(** * The further properties on concrete runs *)

Section MoreConcrete.
Import Examples.

Lemma not_same_elements (s1 s2 : list nat) e :
  e ∈ s1 → e ∉ s2 → ¬ same_elements s1 s2.
Proof. intros H1 H2 Hs. apply H2, Hs, H1. Qed.

Lemma delete_present_witness :
  (SetKeyedMap.delete churn3.1 churn3.2 3).2 = true ∧
  S (SetKeyedMap.size (SetKeyedMap.delete churn3.1 churn3.2 3).1)
  = SetKeyedMap.size churn3.2 ∧
  SetKeyedMap.has churn3.1 (SetKeyedMap.delete churn3.1 churn3.2 3).1 0
  = false ∧
  SetKeyedMap.get churn3.1 (SetKeyedMap.delete churn3.1 churn3.2 3).1 0
  = None ∧
  SetKeyedMap.delete churn3.1 (SetKeyedMap.delete churn3.1 churn3.2 3).1 0
  = ((SetKeyedMap.delete churn3.1 churn3.2 3).1, false).
Proof.
  apply (delete_present churn3.1 churn3.2 3 0 reachable_churn3).
  - split; by_computation.
  - by vm_compute.
  - apply same_elements_Forall; by_computation.
Defined.

Lemma missing_key_not_found_witness :
  SetKeyedMap.get churn3.1 churn4.1 0 = None ∧
  SetKeyedMap.has churn3.1 churn4.1 0 = false ∧
  SetKeyedMap.delete churn3.1 churn4.1 0 = (churn4.1, false).
Proof.
  apply (missing_key_not_found churn3.1 churn4.1 0 reachable_churn4).
  apply Forall_forall. change (canonicalKeys churn4.1) with [5; 6].
  repeat apply Forall_cons_2; [..|apply Forall_nil_2].
  - apply (not_same_elements _ _ 3); by_computation.
  - apply (not_same_elements _ _ 4); by_computation.
Defined.

Lemma set_then_delete_restores_witness :
  SetKeyedMap.delete (SetKeyedMap.set ab_ba new 0 7).1
    (SetKeyedMap.set ab_ba new 0 7).2 1 = (new, true).
Proof.
  apply (set_then_delete_restores ab_ba new 0 1 7 reachable_ab_ba).
  - by_computation.
  - intros ck Hck. by apply elem_of_nil in Hck.
  - apply same_elements_Forall; by_computation.
Defined.


Lemma set_other_key_unchanged_witness :
  SetKeyedMap.get (SetKeyedMap.set churn3.1 churn3.2 1 99).1
    (SetKeyedMap.set churn3.1 churn3.2 1 99).2 0
  = SetKeyedMap.get churn3.1 churn3.2 0 ∧
  SetKeyedMap.has (SetKeyedMap.set churn3.1 churn3.2 1 99).1
    (SetKeyedMap.set churn3.1 churn3.2 1 99).2 0
  = SetKeyedMap.has churn3.1 churn3.2 0.
Proof.
  apply (set_other_key_unchanged churn3.1 churn3.2 1 0 99 reachable_churn3).
  - by_computation.
  - apply (not_same_elements _ _ 3); by_computation.
Defined.

Lemma delete_other_key_unchanged_witness :
  SetKeyedMap.get churn3.1 (SetKeyedMap.delete churn3.1 churn3.2 1).1 0
  = SetKeyedMap.get churn3.1 churn3.2 0 ∧
  SetKeyedMap.has churn3.1 (SetKeyedMap.delete churn3.1 churn3.2 1).1 0
  = SetKeyedMap.has churn3.1 churn3.2 0.
Proof.
  apply (delete_other_key_unchanged churn3.1 churn3.2 1 0 reachable_churn3).
  apply (not_same_elements _ _ 3); by_computation.
Defined.

Lemma set_present_in_place_witness :
  (SetKeyedMap.set churn3.1 churn3.2 3 11).1 = churn3.1 ∧
  canonicalKeys (SetKeyedMap.set churn3.1 churn3.2 3 11).2
  = canonicalKeys churn3.2 ∧
  SetKeyedMap.subkeyToKeys (SetKeyedMap.set churn3.1 churn3.2 3 11).2
  = SetKeyedMap.subkeyToKeys churn3.2 ∧
  SetKeyedMap.size (SetKeyedMap.set churn3.1 churn3.2 3 11).2
  = SetKeyedMap.size churn3.2.
Proof.
  apply (set_present_in_place churn3.1 churn3.2 3 11 reachable_churn3).
  by vm_compute.
Defined.

Lemma set_absent_appends_witness :
  (SetKeyedMap.set ab_ba new 0 7).1 = ab_ba ++ [[1; 2]] ∧
  view (SetKeyedMap.set ab_ba new 0 7).1 (SetKeyedMap.set ab_ba new 0 7).2
  = view ab_ba new ++ [([1; 2], 7)] ∧
  SetKeyedMap.size (SetKeyedMap.set ab_ba new 0 7).2
  = S (SetKeyedMap.size new).
Proof.
  apply (set_absent_appends ab_ba new 0 7 reachable_ab_ba).
  by vm_compute.
Defined.

Lemma set_stores_a_copy_witness :
  caller_holds (SetKeyedMap.set ab_ba new 0 7).1
    (SetKeyedMap.set ab_ba new 0 7).2 0 ∧
  mutation_safe (SetKeyedMap.set ab_ba new 0 7).1
    (SetKeyedMap.set ab_ba new 0 7).2 0.
Proof.
  apply (set_stores_a_copy ab_ba new 0 7 reachable_ab_ba).
  split; by_computation.
Defined.

Lemma clear_forgets_everything_witness :
  SetKeyedMap.size (SetKeyedMap.clear churn3.2) = 0 ∧
  SetKeyedMap.dispose churn3.2 = SetKeyedMap.clear churn3.2 ∧
  SetKeyedMap.entries churn3.1 (SetKeyedMap.clear churn3.2)
  = (churn3.1, []) ∧
  SetKeyedMap.get churn3.1 (SetKeyedMap.clear churn3.2) 0 = None ∧
  SetKeyedMap.has churn3.1 (SetKeyedMap.clear churn3.2) 0 = false ∧
  SetKeyedMap.delete churn3.1 (SetKeyedMap.clear churn3.2) 0
  = (SetKeyedMap.clear churn3.2, false).
Proof.
  exact (clear_forgets_everything churn3.1 churn3.2 0 reachable_churn3).
Defined.

Lemma entries_yield_the_entries_witness :
  List.map
    (λ kv : nat * nat,
       (JSSet.contents (SetKeyedMap.entries churn3.1 churn3.2).1 kv.1, kv.2))
    (SetKeyedMap.entries churn3.1 churn3.2).2
  = [([1; 2], 10); ([3], 20); ([4; 5], 30)] ∧
  (SetKeyedMap.entries churn3.1 churn3.2).2.*2 = [10; 20; 30] ∧
  List.map (JSSet.contents (SetKeyedMap.keys churn3.1 churn3.2).1)
    (SetKeyedMap.keys churn3.1 churn3.2).2
  = [[1; 2]; [3]; [4; 5]] ∧
  (SetKeyedMap.entries churn3.1 churn3.2).2.*1 = [7; 8; 9] ∧
  (SetKeyedMap.keys (SetKeyedMap.entries churn3.1 churn3.2).1 churn3.2).2
  = [10; 11; 12] ∧
  7 ∉ (SetKeyedMap.keys (SetKeyedMap.entries churn3.1 churn3.2).1 churn3.2).2.
Proof.
  destruct (entries_yield_the_entries churn3.1 churn3.2 reachable_churn3)
    as (Hentries & Hvalues & _ & Hkeys & _ & Hlater & _).
  split_and!;
    [exact Hentries|exact Hvalues|exact Hkeys|by vm_compute|by vm_compute|].
  apply Hlater. by_computation.
Defined.

Lemma every_some_over_entries_witness :
  (SetKeyedMap.every churn3.1 churn3.2 over_ten).2 = false ∧
  (SetKeyedMap.some churn3.1 churn3.2 over_ten).2 = true ∧
  (SetKeyedMap.every churn3.1 churn3.2 over_ten).2
  = negb (SetKeyedMap.some churn3.1 churn3.2
            (λ v s, negb (over_ten v s))).2.
Proof.
  exact (every_some_over_entries churn3.1 churn3.2 over_ten
           reachable_churn3).
Defined.

Lemma map_flatMap_forEach_in_order_witness :
  (SetKeyedMap.map churn3.1 churn3.2 double).2 = [20; 40; 60] ∧
  (SetKeyedMap.flatMap churn3.1 churn3.2 (λ v s, v :: s)).2
  = concat (SetKeyedMap.map churn3.1 churn3.2 (λ v s, v :: s)).2 ∧
  (SetKeyedMap.forEach churn3.1 churn3.2 snoc_value []).2 = [10; 20; 30].
Proof.
  exact (map_flatMap_forEach_in_order churn3.1 churn3.2 double
           (λ v s, v :: s) snoc_value [] reachable_churn3).
Defined.

Lemma includes_iff_value_stored_witness :
  SetKeyedMap.includes MoreExamples.nan2.2 (Some 5) = true ∧
  (2, None) ∈ SetKeyedMap.valueMap MoreExamples.nan2.2 ∧
  SetKeyedMap.includes MoreExamples.nan2.2 None = false ∧
  SetKeyedMap.includes churn3.2 20
  = (SetKeyedMap.some churn3.1 churn3.2 (λ v' _, strict_eq v' 20)).2.
Proof.
  destruct (includes_iff_value_stored MoreExamples.nan2.1 MoreExamples.nan2.2
              (Some 5) reachable_nan2) as (_ & _ & Hnumber & _).
  destruct (includes_iff_value_stored MoreExamples.nan2.1 MoreExamples.nan2.2
              None reachable_nan2) as (_ & _ & _ & Hnan).
  destruct (includes_iff_value_stored churn3.1 churn3.2 20 reachable_churn3)
    as (_ & Hsome & _).
  split_and!; [|by_computation| |exact Hsome].
  - apply Hnumber; [|exists 3; by_computation].
    intros [x|]; [|done]. unfold strict_eq; simpl.
    rewrite bool_decide_eq_true. split; congruence.
  - apply Hnan. by intros [x|].
Defined.

Lemma find_returns_first_match_witness :
  (SetKeyedMap.find churn3.1 churn3.2 (pure_callback over_ten)).2
  = Some (8, 20) ∧
  caller_holds (SetKeyedMap.find churn3.1 churn3.2 (pure_callback over_ten)).1
    churn3.2 8 ∧
  JSSet.contents
    (SetKeyedMap.find churn3.1 churn3.2 (pure_callback over_ten)).1 8 = [3] ∧
  (SetKeyedMap.find churn3.1 churn3.2 MoreExamples.add_nine).2
  = Some (7, 10) ∧
  JSSet.contents (SetKeyedMap.find churn3.1 churn3.2 MoreExamples.add_nine).1 7
  = [1; 2; 9] ∧
  SetKeyedMap.get (SetKeyedMap.find churn3.1 churn3.2 MoreExamples.add_nine).1
    churn3.2 3 = Some 10.
Proof.
  destruct (find_returns_first_match churn3.1 churn3.2
              (pure_callback over_ten) reachable_churn3) as [Hsome _].
  destruct (Hsome 8 20 eq_refl) as (Hcaller & _).
  destruct (find_returns_first_match churn3.1 churn3.2 MoreExamples.add_nine
              reachable_churn3) as [Hsome' _].
  destruct (Hsome' 7 10 eq_refl) as (_ & i & ck & Hi & Hc & _).
  split_and!;
    [by vm_compute|exact Hcaller|by vm_compute|by vm_compute| |by vm_compute].
  rewrite Hc. destruct i as [|[|[|i]]]; [|by vm_compute in Hi..].
  injection Hi as <-. by vm_compute.
Defined.



End MoreConcrete.
